(** * brain-sim-learning: the simulation core, embedded and verified

    A shallow embedding of [src/simulation/network.py],
    [src/simulation/central_hub.py] and [src/simulation/learning.py].

    Modelling conventions.
    - Python objects that are shared by reference (neurons, connections) live
      in arenas: a [Neuron] reference is an index into the network's neuron
      arena, a [Connection] reference an index into [Network.connections].
      In-place mutation becomes replacement at that index.
    - Python [dict]s whose iteration order is observable (the region mapping)
      are association lists in insertion order; the other dictionaries are
      [gmap]s.
    - Python [int] is [Z].  Python [float] is an abstract numeric type [F]
      with the operations the source uses (class [Num]); it is instantiated
      with exact rationals [Q] for the general theorems and with IEEE
      binary64 ([PrimFloat]) where a property depends on rounding.
    - The module-level [random] generator is an explicit oracle [Rng.t].
    - Purely visual data (positions, radii, colours, display names) has no
      influence on the dynamics and is left out; the random draws the source
      spends on it are still consumed. *)

From Stdlib Require Import ZArith QArith Qminmax Lia Lqa List Floats.
From stdpp Require Import base option list gmap strings pretty.

Set Default Proof Using "Type".
Open Scope Z_scope.

(** ** Numbers *)

Class Num (F : Type) := {
  lit : Q -> F;               (* a numeric literal of the source *)
  num_add : F -> F -> F;
  num_sub : F -> F -> F;
  num_mul : F -> F -> F;
  num_div : F -> F -> F;
  num_ltb : F -> F -> bool;   (* Python [x < y] *)
  num_leb : F -> F -> bool;   (* Python [x <= y] *)
}.
Arguments lit {F _} _%_Q.

Declare Scope num_scope.
Delimit Scope num_scope with num.
Infix "+" := num_add : num_scope.
Infix "-" := num_sub : num_scope.
Infix "*" := num_mul : num_scope.
Infix "/" := num_div : num_scope.
Infix "<?" := num_ltb : num_scope.
Infix "<=?" := num_leb : num_scope.
(* Python spells the mirrored comparisons with the same primitive. *)
Notation "x >? y" := (num_ltb y x) (at level 70) : num_scope.
Notation "x >=? y" := (num_leb y x) (at level 70) : num_scope.

(** Exact rational arithmetic. *)
#[export] Instance Num_Q : Num Q := {|
  lit q := q;
  num_add := Qplus;
  num_sub := Qminus;
  num_mul := Qmult;
  num_div := Qdiv;
  num_ltb x y := negb (Qle_bool y x);
  num_leb := Qle_bool;
|}.

(** IEEE 754 binary64, the representation of a CPython [float].  A literal
    n/d with small n and d is the correctly rounded quotient of two exactly
    represented integers, which is the double the Python parser produces. *)
Definition float_of_Z (z : Z) : float :=
  match z with
  | Z.neg p => PrimFloat.opp (PrimFloat.of_uint63 (Uint63.of_Z (Z.pos p)))
  | _ => PrimFloat.of_uint63 (Uint63.of_Z z)
  end.

#[export] Instance Num_float : Num float := {|
  lit q := PrimFloat.div (float_of_Z (Qnum q)) (float_of_Z (Z.pos (Qden q)));
  num_add := PrimFloat.add;
  num_sub := PrimFloat.sub;
  num_mul := PrimFloat.mul;
  num_div := PrimFloat.div;
  num_ltb := PrimFloat.ltb;
  num_leb := PrimFloat.leb;
|}.

(** Python's two-argument [min] and [max] return the first argument unless
    the second is strictly smaller (resp. larger). *)
Definition py_min `{Num F} (a b : F) : F := if (b <? a)%num then b else a.
Definition py_max `{Num F} (a b : F) : F := if (b >? a)%num then b else a.

(** [max(xs)] on a non-empty list: a left-to-right scan keeping the first
    maximal element. *)
Definition py_max_list `{Num F} (x : F) (xs : list F) : F :=
  fold_left py_max xs x.

(** ** Neuron (network.py, class Neuron) *)

Module Neuron.
Section Neuron.
Context {F : Type} `{Num F}.

Record t := mk {
  id : string;
  region_id : string;
  activity : F;
  threshold : F;
  potential : F;
  refractory : Z;
  outgoing : list nat;      (* references into Network.connections *)
  incoming : list nat;
}.

Definition set_activity (a : F) (n : t) : t :=
  mk (id n) (region_id n) a (threshold n) (potential n) (refractory n)
     (outgoing n) (incoming n).
Definition set_potential (p : F) (n : t) : t :=
  mk (id n) (region_id n) (activity n) (threshold n) p (refractory n)
     (outgoing n) (incoming n).
Definition set_refractory (r : Z) (n : t) : t :=
  mk (id n) (region_id n) (activity n) (threshold n) (potential n) r
     (outgoing n) (incoming n).
Definition set_outgoing (l : list nat) (n : t) : t :=
  mk (id n) (region_id n) (activity n) (threshold n) (potential n)
     (refractory n) l (incoming n).
Definition set_incoming (l : list nat) (n : t) : t :=
  mk (id n) (region_id n) (activity n) (threshold n) (potential n)
     (refractory n) (outgoing n) l.

(** [Neuron(id=..., region_id=...)] with the dataclass defaults. *)
Definition new (id region_id : string) : t :=
  mk id region_id (lit 0) (lit 0.5) (lit 0) 0 [] [].

Definition receive_input (amount weight : F) (n : t) : t :=
  if refractory n >? 0 then n
  else set_potential (potential n + amount * weight)%num n.

Definition _fire (n : t) : t * list (nat * F) :=
  let n := set_activity (lit 1) n in
  let n := set_potential (lit 0) n in
  let n := set_refractory 5 n in
  (n, map (fun conn => (conn, activity n)) (outgoing n)).

Definition update (decay_rate : F) (n : t) : t * list (nat * F) :=
  (* Decay refractory period *)
  let n :=
    if refractory n >? 0
    then set_activity (activity n * lit 0.8)%num
           (set_refractory (refractory n - 1) n)
    else n in
  (* Check if should fire *)
  let '(n, signals) :=
    if (potential n >=? threshold n)%num && (refractory n <=? 0)
    then _fire n
    else (n, []) in
  (* Decay potential *)
  let n := set_potential (potential n * (lit 1 - decay_rate))%num n in
  (n, signals).

Definition default_decay_rate : F := lit 0.05.

Definition stimulate (strength : F) (n : t) : t :=
  set_potential (potential n + strength)%num n.
End Neuron.
Arguments t : clear implicits.
End Neuron.

(** ** Signal and Connection (network.py) *)

Module Signal.
Section Signal.
Context {F : Type} `{Num F}.
Record t := mk { progress : F; strength : F }.
End Signal.
Arguments t : clear implicits.
End Signal.

Module Connection.
Section Connection.
Context {F : Type} `{Num F}.

Record t := mk {
  id : string;
  from_neuron : nat;        (* references into the neuron arena *)
  to_neuron : nat;
  weight : F;
  activity : F;
  signals : list (Signal.t F);
}.

Definition set_weight (w : F) (c : t) : t :=
  mk (id c) (from_neuron c) (to_neuron c) w (activity c) (signals c).
Definition set_activity (a : F) (c : t) : t :=
  mk (id c) (from_neuron c) (to_neuron c) (weight c) a (signals c).
Definition set_signals (l : list (Signal.t F)) (c : t) : t :=
  mk (id c) (from_neuron c) (to_neuron c) (weight c) (activity c) l.

(** [Connection(id=..., from_neuron=..., to_neuron=...)]. *)
Definition new (id : string) (from_neuron to_neuron : nat) : t :=
  mk id from_neuron to_neuron (lit 1) (lit 0) [].

Definition add_signal (strength : F) (c : t) : t :=
  let c := set_signals (signals c ++ [Signal.mk (lit 0) strength]) c in
  set_activity (py_min (lit 1) (activity c + lit 0.3)%num) c.

(** The loop of [update] over [self.signals]: every signal is advanced;
    the result is the pair (arrived, remaining), both in list order. *)
Fixpoint sweep (step : F) (l : list (Signal.t F))
  : list (Signal.t F) * list (Signal.t F) :=
  match l with
  | [] => ([], [])
  | signal :: l =>
      let signal :=
        Signal.mk (Signal.progress signal + step)%num
                  (Signal.strength signal) in
      let '(arrived, remaining) := sweep step l in
      if (Signal.progress signal >=? lit 1)%num
      then (signal :: arrived, remaining)
      else (arrived, signal :: remaining)
  end.

Definition default_base_speed : F := lit 0.02.

Definition update (speed_multiplier base_speed : F) (c : t)
  : t * list (Signal.t F) :=
  let '(arrived, remaining) :=
    sweep (base_speed * speed_multiplier)%num (signals c) in
  let c := set_signals remaining c in
  let c := set_activity (activity c * lit 0.95)%num c in
  (c, arrived).

(** [k] successive ticks of one connection at the default base speed;
    the second component is what the last tick returned. *)
Fixpoint ticks (k : nat) (speed_multiplier : F) (c : t)
  : t * list (Signal.t F) :=
  match k with
  | O => (c, [])
  | S k =>
      update speed_multiplier default_base_speed
             (fst (ticks k speed_multiplier c))
  end.
End Connection.
Arguments t : clear implicits.
End Connection.

(** ** The Python process: object arenas, the random module, exceptions *)

(** Outcomes of the module-level generator.  [random_at] lists what the
    successive calls of [random.random()] return, [below_at] the raw
    integers behind [random.randrange]-style draws; [pos] counts the draws
    made so far.  Every behaviour of the real generator is one such oracle. *)
Module Rng.
Section Rng.
Context {F : Type}.
Record t := mk {
  random_at : nat -> F;
  below_at : nat -> nat;
  pos : nat;
}.
Definition advance (g : t) : t := mk (random_at g) (below_at g) (S (pos g)).
Definition random (g : t) : F * t := (random_at g (pos g), advance g).
(** [_randbelow(n)] for [n > 0]. *)
Definition randbelow (n : nat) (g : t) : nat * t :=
  (below_at g (pos g) mod n, advance g)%nat.
End Rng.
Arguments t : clear implicits.
End Rng.

Module World.
Section World.
Context {F : Type}.
Record t := mk {
  neurons : list (Neuron.t F);          (* every Neuron object *)
  connections : list (Connection.t F);  (* every Connection object *)
  rng : Rng.t F;                        (* state of module [random] *)
}.
Definition empty (g : Rng.t F) : t := mk [] [] g.
Definition set_neurons (l : list (Neuron.t F)) (w : t) : t :=
  mk l (connections w) (rng w).
Definition set_connections (l : list (Connection.t F)) (w : t) : t :=
  mk (neurons w) l (rng w).
Definition set_rng (g : Rng.t F) (w : t) : t :=
  mk (neurons w) (connections w) g.
(** In-place mutation of the object behind a reference. *)
Definition alter_neuron (f : Neuron.t F -> Neuron.t F) (r : nat) (w : t) : t :=
  set_neurons (alter f r (neurons w)) w.
Definition alter_connection (f : Connection.t F -> Connection.t F) (r : nat)
    (w : t) : t :=
  set_connections (alter f r (connections w)) w.
End World.
Arguments t : clear implicits.
End World.

(** Python exceptions the modelled code can raise. *)
Inductive exn := ZeroDivisionError | IndexError.
Inductive Py (A : Type) := Ok (a : A) | Raise (e : exn).
Arguments Ok {A} a.
Arguments Raise {A} e.

(** What one tick does, in program order. *)
Inductive Event :=
| ConnectionAdvanced (conn : nat)            (* conn.update(...) *)
| InputDelivered (conn : nat) (neuron : nat) (* to_neuron.receive_input(...) *)
| NeuronUpdated (neuron : nat)               (* neuron.update() *)
| SignalEmitted (neuron : nat) (conn : nat). (* conn.add_signal(...) *)

(** Computations over the world that record their events. *)
Section Monad.
Context {F : Type}.

Definition M (A : Type) : Type := World.t F -> A * World.t F * list Event.

Definition ret {A} (a : A) : M A := fun w => (a, w, []).
Definition bind {A B} (m : M A) (k : A -> M B) : M B :=
  fun w =>
    let '(a, w, l1) := m w in
    let '(b, w, l2) := k a w in
    (b, w, l1 ++ l2).
Definition get : M (World.t F) := fun w => (w, w, []).
Definition modify (f : World.t F -> World.t F) : M unit :=
  fun w => (tt, f w, []).
Definition emit (e : Event) : M unit := fun w => (tt, w, [e]).

Definition result {A} (x : A * World.t F * list Event) : A := fst (fst x).
Definition world {A} (x : A * World.t F * list Event) : World.t F :=
  snd (fst x).
Definition events {A} (x : A * World.t F * list Event) : list Event :=
  snd x.

(** [random.random()] *)
Definition random : M F :=
  fun w =>
    let '(x, g) := Rng.random (World.rng w) in
    (x, World.set_rng g w, []).
Definition randbelow (n : nat) : M nat :=
  fun w =>
    let '(x, g) := Rng.randbelow n (World.rng w) in
    (x, World.set_rng g w, []).
End Monad.

Declare Scope m_scope.
Delimit Scope m_scope with M.
Notation "x <- m ;; k" := (bind m (fun x => k))
  (at level 100, m at next level, right associativity) : m_scope.
Notation "m ;; k" := (bind m (fun _ => k))
  (at level 100, right associativity) : m_scope.

Section Loops.
Context {F : Type}.
Local Open Scope m_scope.

(** [for x in xs: body(x)] *)
Fixpoint for_each {A} (xs : list A) (body : A -> M (F := F) unit) : M unit :=
  match xs with
  | [] => ret tt
  | x :: xs => body x ;; for_each xs body
  end.

(** A loop that also updates local variables [acc]. *)
Fixpoint fold_each {A Acc} (xs : list A) (acc : Acc)
    (body : A -> Acc -> M (F := F) Acc) : M Acc :=
  match xs with
  | [] => ret acc
  | x :: xs => acc <- body x acc ;; fold_each xs acc body
  end.

(** [x[i], x[j] = x[j], x[i]] *)
Definition swap {A} (i j : nat) (l : list A) : list A :=
  match l !! i, l !! j with
  | Some a, Some b => <[j := a]> (<[i := b]> l)
  | _, _ => l
  end.

(** [random.shuffle(x)]: for i from len(x)-1 down to 1, swap x[i] with
    x[randbelow(i+1)]. *)
Fixpoint shuffle_from {A} (i : nat) (l : list A) : M (F := F) (list A) :=
  match i with
  | O => ret l
  | S i' => j <- randbelow (S i) ;; shuffle_from i' (swap i j l)
  end.
Definition shuffle {A} (l : list A) : M (list A) :=
  shuffle_from (length l - 1) l.
End Loops.

(** ** Creating an edge *)

Section Connect.
Context {F : Type} `{Num F}.
Local Open Scope m_scope.

(** The creation of one edge, as each topology loop spells it out:
    [Connection(id=f"{prefix}{conn_id}", from_neuron=n1, to_neuron=n2)],
    then [connections.append(conn)], [n1.outgoing.append(conn)],
    [n2.incoming.append(conn)] and [conn_id += 1].  The local state of the
    loop is the pair ([connections], [conn_id]). *)
Definition connect (prefix : string) (n1 n2 : nat)
    (acc : list nat * nat) : M (list nat * nat) :=
  let '(connections, conn_id) := acc in
  w <- get ;;
  let conn := length (World.connections w) in
  modify (World.set_connections
            (World.connections w ++
             [Connection.new (prefix +:+ pretty conn_id) n1 n2])) ;;
  modify (World.alter_neuron
            (fun n => Neuron.set_outgoing (Neuron.outgoing n ++ [conn]) n) n1) ;;
  modify (World.alter_neuron
            (fun n => Neuron.set_incoming (Neuron.incoming n ++ [conn]) n) n2) ;;
  ret (connections ++ [conn], S conn_id).


End Connect.

(** ** Region (network.py, class Region) *)

Module Region.
Section Region.
Context {F : Type} `{Num F}.
Local Open Scope m_scope.

Record t := mk {
  id : string;
  neuron_count : Z;
  neurons : list nat;       (* references into the neuron arena *)
  total_activity : F;
}.

Definition set_neurons (l : list nat) (r : t) : t :=
  mk (id r) (neuron_count r) l (total_activity r).
Definition set_total_activity (a : F) (r : t) : t :=
  mk (id r) (neuron_count r) (neurons r) a.

Definition default_neuron_count : Z := 60.

(** [Region(id=..., neuron_count=...)] *)
Definition new (id : string) (neuron_count : Z) : t :=
  mk id neuron_count [] (lit 0).

(** [range(n)] for a Python int: empty when [n <= 0]. *)
Definition range (n : Z) : list nat := seq 0 (Z.to_nat n).

(** Allocation of a new Neuron object; the reference is returned. *)
Definition alloc_neuron (n : Neuron.t F) : M nat :=
  w <- get ;;
  modify (World.set_neurons (World.neurons w ++ [n])) ;;
  ret (length (World.neurons w)).

Definition generate_neurons (r : t) : M t :=
  fold_each (range (neuron_count r)) r (fun i r =>
    _angle <- random ;;
    _r <- random ;;
    _radius <- random ;;      (* default_factory of Neuron.radius *)
    ref <- alloc_neuron (Neuron.new (id r +:+ "_" +:+ pretty i) (id r)) ;;
    ret (set_neurons (neurons r ++ [ref]) r)).

(** The body of the loop of [update]: [neuron.update()], then
    [self.total_activity += neuron.activity]. *)
Definition update_neuron (ref : nat) (total : F) : M F :=
  w <- get ;;
  match World.neurons w !! ref with
  | Some neuron =>
      let neuron := fst (Neuron.update Neuron.default_decay_rate neuron) in
      modify (World.alter_neuron (fun _ => neuron) ref) ;;
      emit (NeuronUpdated ref) ;;
      ret (total + Neuron.activity neuron)%num
  | None => ret total
  end.

Definition update (r : t) : M t :=
  total <- fold_each (neurons r) (lit 0) update_neuron ;;
  let total :=
    match neurons r with
    | [] => total
    | _ :: _ => (total / lit (inject_Z (Z.of_nat (length (neurons r)))))%num
    end in
  ret (set_total_activity total r).

Definition default_count : Z := 5.

Definition stimulate (strength : F) (count : Z) (r : t) : M unit :=
  shuffled <- shuffle (neurons r) ;;
  let k := Z.min count (Z.of_nat (length shuffled)) in
  (* shuffled[:k]; a negative k counts from the end *)
  let chosen :=
    if k <? 0
    then take (Z.to_nat (Z.of_nat (length shuffled) + k)) shuffled
    else take (Z.to_nat k) shuffled in
  for_each chosen (fun ref =>
    modify (World.alter_neuron (Neuron.stimulate strength) ref)).
End Region.
Arguments t : clear implicits.
End Region.

(** ** CentralHub (central_hub.py) *)

(** [xs[k]] for a Python int [k]: the position addressed in a list of
    length [len], counting from the end when [k] is negative. *)
Definition py_index (k : Z) (len : nat) : option nat :=
  if 0 <=? k
  then (if k <? Z.of_nat len then Some (Z.to_nat k) else None)
  else (if - Z.of_nat len <=? k then Some (Z.to_nat (Z.of_nat len + k))
        else None).

Module CentralHub.
Section CentralHub.
Context {F : Type} `{Num F}.
Local Open Scope m_scope.

Record t := mk {
  neuron_count : Z;
  output_size : Z;
  neurons : list nat;
  state : list F;
  region_connections : gmap string (list nat);
  modulation_weights : gmap string F;
}.

Definition set_state (s : list F) (h : t) : t :=
  mk (neuron_count h) (output_size h) (neurons h) s
     (region_connections h) (modulation_weights h).
Definition set_neurons (l : list nat) (h : t) : t :=
  mk (neuron_count h) (output_size h) l (state h)
     (region_connections h) (modulation_weights h).
Definition set_modulation_weights (m : gmap string F) (h : t) : t :=
  mk (neuron_count h) (output_size h) (neurons h) (state h)
     (region_connections h) m.

(** [[0.0] * n] for a Python int [n]: empty when [n <= 0]. *)
Definition zeros (n : Z) : list F := replicate (Z.to_nat n) (lit 0).

(** [CentralHub(neuron_count=..., output_size=...)] *)
Definition new (neuron_count output_size : Z) : t :=
  mk neuron_count output_size [] (zeros output_size) ∅ ∅.
Definition default_neuron_count : Z := 20.
Definition default_output_size : Z := 4.

Definition _generate_neurons (h : t) : M t :=
  fold_each (Region.range (neuron_count h)) h (fun i h =>
    _angle <- random ;;
    _r <- random ;;
    _radius <- random ;;
    ref <- Region.alloc_neuron (Neuron.new ("hub_" +:+ pretty i) "hub") ;;
    ret (set_neurons (neurons h ++ [ref]) h)).

(** [initialize(bounds)]: the geometry apart, the neurons are generated. *)
Definition initialize (h : t) : M t := _generate_neurons h.

Definition default_count : Z := 5.

(** Stimulate random hub neurons. *)
Definition stimulate (strength : F) (count : Z) (h : t) : M unit :=
  shuffled <- shuffle (neurons h) ;;
  let k := Z.min count (Z.of_nat (length shuffled)) in
  let chosen :=
    if k <? 0
    then take (Z.to_nat (Z.of_nat (length shuffled) + k)) shuffled
    else take (Z.to_nat k) shuffled in
  for_each chosen (fun ref =>
    modify (World.alter_neuron (Neuron.stimulate strength) ref)).

(** The loop [for i, activity in enumerate(region_activities):
    self.state[i % self.output_size] += activity], from index [i] on. *)
Fixpoint distribute (size : Z) (i : Z) (activities : list F)
    (state : list F) : Py (list F) :=
  match activities with
  | [] => Ok state
  | activity :: activities =>
      if size =? 0 then Raise ZeroDivisionError
      else
        match py_index (i mod size) (length state) with
        | None => Raise IndexError
        | Some k =>
            distribute size (i + 1) activities
              (alter (fun v => v + activity)%num k state)
        end
  end.

Definition aggregate (regions : list (string * Region.t F)) (h : t)
  : Py (t * list F) :=
  let region_activities :=
    map (fun '(region_id, region) =>
           let weight :=
             default (lit 1) (modulation_weights h !! region_id) in
           (Region.total_activity region * weight)%num)
        regions in
  (* Distribute activities into output state *)
  match distribute (output_size h) 0 region_activities
          (zeros (output_size h)) with
  | Raise e => Raise e
  | Ok state =>
      (* Normalize *)
      let max_val :=
        match state with
        | [] => lit 1
        | v :: vs => py_max_list v vs
        end in
      let state :=
        if (max_val >? lit 0)%num
        then map (fun v => py_min (lit 1) (v / py_max max_val (lit 1))%num)
                 state
        else state in
      Ok (set_state state h, state)
  end.


Definition default_connection_prob : F := lit 0.3.




Definition default_target_activity : F := lit 0.5.

Definition modulate_regions (regions : list (string * Region.t F))
    (target_activity : F) (h : t) : t :=
  fold_left (fun h '(region_id, region) =>
    let current := Region.total_activity region in
    let diff := (target_activity - current)%num in
    match modulation_weights h !! region_id with
    | Some weight =>
        let weight := (weight + diff * lit 0.01)%num in
        let weight := py_max (lit 0.1) (py_min (lit 2) weight) in
        set_modulation_weights (<[region_id := weight]> (modulation_weights h)) h
    | None => h
    end) regions h.

Definition get_readout (h : t) : list F := state h.

Definition update (h : t) : M unit :=
  for_each (neurons h) (fun ref =>
    modify (World.alter_neuron
              (fun n => fst (Neuron.update Neuron.default_decay_rate n)) ref) ;;
    emit (NeuronUpdated ref)).

Definition reset (h : t) : M t :=
  for_each (neurons h) (fun ref =>
    modify (World.alter_neuron
              (fun n => Neuron.set_refractory 0
                          (Neuron.set_potential (lit 0)
                             (Neuron.set_activity (lit 0) n))) ref)) ;;
  ret (set_state (zeros (output_size h)) h).
End CentralHub.
Arguments t : clear implicits.
End CentralHub.

(** ** Network (network.py, class Network) *)

(** A [dict] with observable insertion order. *)
Fixpoint dict_set {V} (k : string) (v : V) (d : list (string * V))
  : list (string * V) :=
  match d with
  | [] => [(k, v)]
  | (k', v') :: d =>
      if String.eqb k' k then (k, v) :: d else (k', v') :: dict_set k v d
  end.

Fixpoint dict_get {V} (k : string) (d : list (string * V)) : option V :=
  match d with
  | [] => None
  | (k', v) :: d => if String.eqb k' k then Some v else dict_get k d
  end.

Module Network.
Section Network.
Context {F : Type} `{Num F}.
Local Open Scope m_scope.

Record Bounds := mk_bounds { x : F; y : F; width : F; height : F }.

Record t := mk {
  bounds : Bounds;
  regions : list (string * Region.t F);
  hub : option (CentralHub.t F);
  connections : list nat;   (* references into the connection arena *)
  all_neurons : list nat;
  total_signals : Z;
  firing_rate : Z;
  active_neurons : Z;
}.

Definition set_regions (l : list (string * Region.t F)) (n : t) : t :=
  mk (bounds n) l (hub n) (connections n) (all_neurons n)
     (total_signals n) (firing_rate n) (active_neurons n).
Definition set_connections (l : list nat) (n : t) : t :=
  mk (bounds n) (regions n) (hub n) l (all_neurons n)
     (total_signals n) (firing_rate n) (active_neurons n).
Definition set_all_neurons (l : list nat) (n : t) : t :=
  mk (bounds n) (regions n) (hub n) (connections n) l
     (total_signals n) (firing_rate n) (active_neurons n).
Definition set_total_signals (k : Z) (n : t) : t :=
  mk (bounds n) (regions n) (hub n) (connections n) (all_neurons n)
     k (firing_rate n) (active_neurons n).
Definition set_active_neurons (k : Z) (n : t) : t :=
  mk (bounds n) (regions n) (hub n) (connections n) (all_neurons n)
     (total_signals n) (firing_rate n) k.

(** The keys of [DEFAULT_REGIONS], in order. *)
Definition DEFAULT_REGIONS : list string :=
  ["frontal"; "parietal"; "temporal"; "occipital"; "motor"; "sensory"].

Definition default_bounds : Bounds :=
  mk_bounds (lit 100) (lit 50) (lit 600) (lit 500).

(** The inner loops of the inter-region part, for one region and the
    regions after it in [region_ids]. *)
Definition connect_pairs (p : F) (ns1 ns2 : list nat)
    (acc : list nat * nat) : M (list nat * nat) :=
  fold_each ns1 acc (fun n1 acc =>
    fold_each ns2 acc (fun n2 acc =>
      r <- random ;;
      if (r <? p)%num then connect "conn_" n1 n2 acc else ret acc)).

Fixpoint inter_region (rs : list (string * Region.t F))
    (acc : list nat * nat) : M (list nat * nat) :=
  match rs with
  | [] => ret acc
  | (_, r1) :: rest =>
      acc <- fold_each rest acc (fun '(_, r2) acc =>
               connect_pairs (lit 0.05) (Region.neurons r1)
                 (Region.neurons r2) acc) ;;
      inter_region rest acc
  end.

Definition _create_connections (net : t) : M t :=
  (* Intra-region connections *)
  acc <- fold_each (regions net) (connections net, O) (fun '(_, region) acc =>
    let neurons := Region.neurons region in
    fold_each (imap (fun i n1 => (i, n1)) neurons) acc (fun '(i, n1) acc =>
      fold_each (imap (fun j n2 => (j, n2)) neurons) acc (fun '(j, n2) acc =>
        if bool_decide (i ≠ j)
        then r <- random ;;
             if (r <? lit 0.15)%num then connect "conn_" n1 n2 acc
             else ret acc
        else ret acc))) ;;
  (* Inter-region connections (sparse) *)
  acc <- inter_region (regions net) acc ;;
  ret (set_connections (fst acc) net).

Definition _initialize (net : t) : M t :=
  (* Create regions *)
  net <- fold_each DEFAULT_REGIONS net (fun id net =>
    region <- Region.generate_neurons
                (Region.new id Region.default_neuron_count) ;;
    ret (set_regions (dict_set id region (regions net)) net)) ;;
  (* Collect all neurons *)
  let net :=
    fold_left (fun net '(_, region) =>
                 set_all_neurons (all_neurons net ++ Region.neurons region) net)
              (regions net) net in
  (* Create connections *)
  _create_connections net.

(** [Network(bounds)] *)
Definition new (bounds : option Bounds) : M t :=
  _initialize (mk (default default_bounds bounds) [] None [] [] 0 0 0).
(** One tick, [update(speed_multiplier)], in its three parts. *)

(** The body of the loop over [self.connections]. *)
Definition advance_connection (speed_multiplier : F) (cref : nat) : M unit :=
  w <- get ;;
  match World.connections w !! cref with
  | Some conn =>
      let '(conn, arrived) :=
        Connection.update speed_multiplier Connection.default_base_speed
          conn in
      modify (World.alter_connection (fun _ => conn) cref) ;;
      emit (ConnectionAdvanced cref) ;;
      for_each arrived (fun signal =>
        modify (World.alter_neuron
                  (Neuron.receive_input (Signal.strength signal)
                     (Connection.weight conn))
                  (Connection.to_neuron conn)) ;;
        emit (InputDelivered cref (Connection.to_neuron conn)))
  | None => ret tt
  end.

(** Update connections and propagate signals *)
Definition update_connections (speed_multiplier : F) (net : t) : M unit :=
  for_each (connections net) (advance_connection speed_multiplier).

(** The body of [for neuron in region.neurons], after [region.update()]. *)
Definition emit_signals (nref : nat) (total_signals : Z) : M Z :=
  w <- get ;;
  match World.neurons w !! nref with
  | Some neuron =>
      if (Neuron.activity neuron >? lit 0.9)%num
      then
        fold_each (Neuron.outgoing neuron) total_signals
          (fun cref total_signals =>
            modify (World.alter_connection
                      (Connection.add_signal (Neuron.activity neuron))
                      cref) ;;
            emit (SignalEmitted nref cref) ;;
            ret (total_signals + 1))
      else ret total_signals
  | None => ret total_signals
  end.

(** The body of [for region in self.regions.values()]; the local state is
    the mapping rebuilt so far and [self.total_signals]. *)
Definition update_region (entry : string * Region.t F)
    (acc : list (string * Region.t F) * Z)
  : M (list (string * Region.t F) * Z) :=
  let '(region_id, region) := entry in
  let '(regions, total_signals) := acc in
  region <- Region.update region ;;
  total_signals <- fold_each (Region.neurons region) total_signals emit_signals ;;
  ret (regions ++ [(region_id, region)], total_signals).

(** Update regions and fire neurons *)
Definition update_regions (net : t) : M (list (string * Region.t F) * Z) :=
  fold_each (regions net) ([], total_signals net) update_region.

(** Update statistics *)
Definition count_active (net : t) : M Z :=
  w <- get ;;
  ret (Z.of_nat (length
    (List.filter (fun nref =>
                    match World.neurons w !! nref with
                    | Some n => (Neuron.activity n >? lit 0.1)%num
                    | None => false
                    end) (all_neurons net)))).

Definition update (speed_multiplier : F) (net : t) : M t :=
  update_connections speed_multiplier net ;;
  acc <- update_regions net ;;
  let net := set_total_signals (snd acc) (set_regions (fst acc) net) in
  active <- count_active net ;;
  ret (set_active_neurons active net).

Definition stimulate_region (region_id : string) (strength : F) (net : t)
  : M unit :=
  match dict_get region_id (regions net) with
  | Some region => Region.stimulate strength Region.default_count region
  | None => ret tt
  end.

Definition inject_input (data : list F) (net : t) : M unit :=
  match dict_get "sensory" (regions net) with
  | Some sensory =>
      for_each (imap (fun i value => (i, value)) (take 10 data))
        (fun '(i, value) =>
           match Region.neurons sensory !! i with
           | Some ref =>
               modify (World.alter_neuron (Neuron.stimulate value) ref)
           | None => ret tt
           end)
  | None => ret tt
  end.

(** [get_state()]: per region (activity, neuron count), then the stats
    (total_signals, active_neurons). *)
Definition get_state (net : t) : list (string * (F * nat)) * (Z * Z) :=
  (map (fun '(id, region) =>
          (id, (Region.total_activity region,
                length (Region.neurons region)))) (regions net),
   (total_signals net, active_neurons net)).
End Network.
Arguments t : clear implicits.
Arguments Bounds : clear implicits.
End Network.

(** ** Learning (learning.py) *)

(** The algorithms keep a reference [self.network] to the network they were
    built for; here the network is handed to each method. *)

Module HebbianLearning.
Section HebbianLearning.
Context {F : Type} `{Num F}.

Record t := mk {
  learning_rate : F;
  enabled : bool;
  decay_rate : F;
  max_weight : F;
  min_weight : F;
}.

Definition set_enabled (b : bool) (a : t) : t :=
  mk (learning_rate a) b (decay_rate a) (max_weight a) (min_weight a).

(** [HebbianLearning(network, learning_rate, decay_rate, max_weight,
    min_weight)]; [Ok] is normal completion of [__init__]. *)
Definition new (learning_rate decay_rate max_weight min_weight : F)
  : Py t :=
  Ok (mk learning_rate false decay_rate max_weight min_weight).

Definition with_defaults : Py t :=
  new (lit 0.01) (lit 0.001) (lit 2) (lit 0.1).

(** The body of the loop in [update], for one connection with
    presynaptic activity [pre] and postsynaptic activity [post]. *)
Definition step (a : t) (pre post : F) (weight : F) : F :=
  (* Hebbian update *)
  let delta := (learning_rate a * pre * post)%num in
  (* Weight decay *)
  let decay := (decay_rate a * (weight - lit 1))%num in
  (* Update weight *)
  let weight := (weight + (delta - decay))%num in
  (* Clamp to bounds *)
  py_max (min_weight a) (py_min (max_weight a) weight).

Definition update_connection (a : t) (w : World.t F) (cref : nat)
  : World.t F :=
  match World.connections w !! cref with
  | Some conn =>
      match World.neurons w !! Connection.from_neuron conn,
            World.neurons w !! Connection.to_neuron conn with
      | Some from_neuron, Some to_neuron =>
          let pre := Neuron.activity from_neuron in
          let post := Neuron.activity to_neuron in
          World.alter_connection
            (Connection.set_weight (step a pre post (Connection.weight conn)))
            cref w
      | _, _ => w
      end
  | None => w
  end.

Definition update (a : t) (net : Network.t F) (w : World.t F) : World.t F :=
  if negb (enabled a) then w
  else fold_left (update_connection a) (Network.connections net) w.

(** Reward doesn't directly apply in pure Hebbian learning. *)
Definition apply_reward (a : t) (reward : F) (net : Network.t F)
    (w : World.t F) : World.t F := w.
End HebbianLearning.
Arguments t : clear implicits.
End HebbianLearning.

Module RewardBasedLearning.
Section RewardBasedLearning.
Context {F : Type} `{Num F}.

Record t := mk {
  learning_rate : F;
  enabled : bool;
  trace_decay : F;
  max_weight : F;
  min_weight : F;
  traces : gmap string F;   (* keyed by Connection.id *)
}.

Definition set_enabled (b : bool) (a : t) : t :=
  mk (learning_rate a) b (trace_decay a) (max_weight a) (min_weight a)
     (traces a).
Definition set_traces (m : gmap string F) (a : t) : t :=
  mk (learning_rate a) (enabled a) (trace_decay a) (max_weight a)
     (min_weight a) m.

(** The identifiers of the network's connections, in order. *)
Definition connection_ids (net : Network.t F) (w : World.t F) : list string :=
  omap (fun cref => Connection.id <$> World.connections w !! cref)
       (Network.connections net).

Definition new (net : Network.t F) (w : World.t F)
    (learning_rate trace_decay max_weight min_weight : F) : Py t :=
  Ok (mk learning_rate false trace_decay max_weight min_weight
        (fold_left (fun traces id => <[id := lit 0]> traces)
                   (connection_ids net w) ∅)).

Definition with_defaults (net : Network.t F) (w : World.t F) : Py t :=
  new net w (lit 0.01) (lit 0.9) (lit 2) (lit 0.1).

Definition trace_of (a : t) (id : string) : F :=
  default (lit 0) (traces a !! id).

(** Update eligibility traces. *)
Definition update (a : t) (net : Network.t F) (w : World.t F) : t :=
  if negb (enabled a) then a
  else
    fold_left (fun a cref =>
      match World.connections w !! cref with
      | Some conn =>
          match World.neurons w !! Connection.from_neuron conn,
                World.neurons w !! Connection.to_neuron conn with
          | Some from_neuron, Some to_neuron =>
              let pre := Neuron.activity from_neuron in
              let post := Neuron.activity to_neuron in
              let current_trace := trace_of a (Connection.id conn) in
              set_traces
                (<[Connection.id conn :=
                     (current_trace * trace_decay a + pre * post)%num]>
                   (traces a)) a
          | _, _ => a
          end
      | None => a
      end) (Network.connections net) a.

(** The body of the first loop of [apply_reward]. *)
Definition reward_connection (a : t) (reward : F) (w : World.t F)
    (cref : nat) : World.t F :=
  match World.connections w !! cref with
  | Some conn =>
      let trace := trace_of a (Connection.id conn) in
      (* Weight update proportional to trace and reward *)
      let delta := (learning_rate a * trace * reward)%num in
      let weight := (Connection.weight conn + delta)%num in
      World.alter_connection
        (Connection.set_weight
           (py_max (min_weight a) (py_min (max_weight a) weight)))
        cref w
  | None => w
  end.

Definition apply_reward (a : t) (reward : F) (net : Network.t F)
    (w : World.t F) : t * World.t F :=
  if negb (enabled a) then (a, w)
  else
    let w := fold_left (reward_connection a reward)
                       (Network.connections net) w in
    (* Optionally decay traces after reward *)
    (set_traces ((fun trace => trace * lit 0.5)%num <$> traces a) a, w).
End RewardBasedLearning.
Arguments t : clear implicits.
End RewardBasedLearning.

(** The concrete subclasses of [LearningAlgorithm]. *)
Inductive LearningAlgorithm (F : Type) :=
| Hebbian (a : HebbianLearning.t F)
| RewardBased (a : RewardBasedLearning.t F).
Arguments Hebbian {F} a.
Arguments RewardBased {F} a.

Module LearningManager.
Section LearningManager.
Context {F : Type} `{Num F}.

Record t := mk {
  algorithms : gmap string (LearningAlgorithm F);
  active_algorithm : option string;
}.

Definition new : t := mk ∅ None.

Definition enable (a : LearningAlgorithm F) : LearningAlgorithm F :=
  match a with
  | Hebbian a => Hebbian (HebbianLearning.set_enabled true a)
  | RewardBased a => RewardBased (RewardBasedLearning.set_enabled true a)
  end.
Definition disable (a : LearningAlgorithm F) : LearningAlgorithm F :=
  match a with
  | Hebbian a => Hebbian (HebbianLearning.set_enabled false a)
  | RewardBased a => RewardBased (RewardBasedLearning.set_enabled false a)
  end.
Definition enabled (a : LearningAlgorithm F) : bool :=
  match a with
  | Hebbian a => HebbianLearning.enabled a
  | RewardBased a => RewardBasedLearning.enabled a
  end.

Definition add_algorithm (name : string) (a : LearningAlgorithm F) (m : t)
  : t :=
  mk (<[name := a]> (algorithms m)) (active_algorithm m).

(** [self.active_algorithm and self.active_algorithm in self.algorithms]:
    [None] and the empty string are falsy. *)
Definition active (m : t) : option (string * LearningAlgorithm F) :=
  match active_algorithm m with
  | Some name =>
      if String.eqb name "" then None
      else (fun a => (name, a)) <$> algorithms m !! name
  | None => None
  end.

(** Every method here returns [None], modelled by returning only the
    state left behind. *)
Definition set_active (name : string) (m : t) : t :=
  match algorithms m !! name with
  | Some _ =>
      (* Disable previous *)
      let algorithms :=
        match active m with
        | Some (previous, a) => <[previous := disable a]> (algorithms m)
        | None => algorithms m
        end in
      (* Enable new *)
      mk (alter enable name algorithms) (Some name)
  | None => m
  end.

Definition update (m : t) (net : Network.t F) (w : World.t F)
  : t * World.t F :=
  match active m with
  | Some (name, Hebbian a) => (m, HebbianLearning.update a net w)
  | Some (name, RewardBased a) =>
      (mk (<[name := RewardBased (RewardBasedLearning.update a net w)]>
             (algorithms m)) (active_algorithm m), w)
  | None => (m, w)
  end.

Definition apply_reward (reward : F) (m : t) (net : Network.t F)
    (w : World.t F) : t * World.t F :=
  match active m with
  | Some (name, Hebbian a) =>
      (m, HebbianLearning.apply_reward a reward net w)
  | Some (name, RewardBased a) =>
      let '(a, w) := RewardBasedLearning.apply_reward a reward net w in
      (mk (<[name := RewardBased a]> (algorithms m)) (active_algorithm m), w)
  | None => (m, w)
  end.

Definition get_algorithm (name : string) (m : t)
  : option (LearningAlgorithm F) := algorithms m !! name.
End LearningManager.
Arguments t : clear implicits.
End LearningManager.

(** [create_learning_manager(network)]: a manager with the default
    algorithms, registered as 'hebbian' and 'reward'. *)
Definition create_learning_manager `{Num F} (net : Network.t F)
    (w : World.t F) : Py (LearningManager.t F) :=
  match HebbianLearning.with_defaults with
  | Raise e => Raise e
  | Ok hebbian =>
      match RewardBasedLearning.with_defaults net w with
      | Raise e => Raise e
      | Ok reward =>
          Ok (LearningManager.add_algorithm "reward" (RewardBased reward)
                (LearningManager.add_algorithm "hebbian" (Hebbian hebbian)
                   LearningManager.new))
      end
  end.

(** * Specification vocabulary *)

(** The predicates, reference functions and sample states that the
    statements below are written with. *)

(** ** Events *)




(** Whether a tick delivered an arrived signal. *)
Definition delivers (l : list Event) : bool :=
  existsb (fun e => match e with InputDelivered _ _ => true | _ => false end) l.

(** ** Reference functions and invariants, in any arithmetic *)

Section Vocabulary.
Context {F : Type} `{Num F}.

(** [wp m Q w]: run from [w], the computation [m] returns a value, a world
    and events satisfying [Q]. *)
Definition wp {A} (m : M (F := F) A)
    (Q : A -> World.t F -> list Event -> Prop) (w : World.t F) : Prop :=
  Q (result (m w)) (world (m w)) (events (m w)).

(** The first tick, counted from 1, at which [update] returns a
    non-empty list of arrived signals. *)
Fixpoint first_arrival (fuel : nat) (m : F) (c : Connection.t F)
  : option nat :=
  match fuel with
  | O => None
  | S fuel =>
      let '(c, arrived) :=
        Connection.update m Connection.default_base_speed c in
      match arrived with
      | [] => option_map S (first_arrival fuel m c)
      | _ :: _ => Some 1%nat
      end
  end.

(** The weights of all connection objects, in arena order. *)
Definition weights (w : World.t F) : list F :=
  map Connection.weight (World.connections w).









(** The references, in increasing order from [i], of the connection objects
    of [cs] that satisfy [p]. *)
Fixpoint refs_from (p : Connection.t F -> bool) (i : nat)
    (cs : list (Connection.t F)) : list nat :=
  match cs with
  | [] => []
  | c :: cs => (if p c then [i] else []) ++ refs_from p (S i) cs
  end.

(** The same from reference 0: all of the arena. *)
Definition refs_where (p : Connection.t F -> bool)
    (cs : list (Connection.t F)) : list nat :=
  refs_from p 0 cs.

(** The invariant of topology generation: the collection [refs] lists every
    connection object once, in creation order; the outgoing (incoming) list
    of every neuron is exactly the connections that start (end) there; and
    every connection joins two existing neurons. *)
Definition wired (refs : list nat) (w : World.t F) : Prop :=
  refs = seq 0 (length (World.connections w)) /\
  (forall r n, World.neurons w !! r = Some n ->
     Neuron.outgoing n =
       refs_where (fun c => Nat.eqb (Connection.from_neuron c) r)
                  (World.connections w) /\
     Neuron.incoming n =
       refs_where (fun c => Nat.eqb (Connection.to_neuron c) r)
                  (World.connections w)) /\
  (forall i c, World.connections w !! i = Some c ->
     (Connection.from_neuron c < length (World.neurons w))%nat /\
     (Connection.to_neuron c < length (World.neurons w))%nat).

(** The loop invariant of [_create_connections] over an arena of [N]
    neurons; the local state is ([self.connections], [conn_id]). *)
Definition wiring (N : nat) (acc : list nat * nat) (w : World.t F)
    (_ : list Event) : Prop :=
  wired (fst acc) w /\ length (World.neurons w) = N.

(** All neuron references of the regions point into an arena of [N]
    neurons. *)
Definition regions_within (N : nat) (rs : list (string * Region.t F)) : Prop :=
  Forall (fun entry => Forall (fun r => (r < N)%nat)
                              (Region.neurons (snd entry))) rs.

(** Before the first connection is made: no connection object exists and
    no neuron lists any. *)
Definition pristine (w : World.t F) : Prop :=
  World.connections w = [] /\
  Forall (fun n => Neuron.outgoing n = [] /\ Neuron.incoming n = [])
         (World.neurons w).

(** The events of each of [k] successive ticks. *)
Fixpoint tick_events (k : nat) (speed_multiplier : F) (net : Network.t F)
    (w : World.t F) : list (list Event) :=
  match k with
  | O => []
  | S k =>
      let run := Network.update speed_multiplier net w in
      events run :: tick_events k speed_multiplier (result run) (world run)
  end.

End Vocabulary.

(** ** Predicates over exact rationals *)

(** The range invariant of a neuron's state. *)
Definition neuron_in_range (n : Neuron.t Q) : Prop :=
  (0 <= Neuron.activity n)%Q /\ (Neuron.activity n <= 1)%Q /\
  0 <= Neuron.refractory n.

(** Tick counts as rationals. *)
Definition Qnat (k : nat) : Q := inject_Z (Z.of_nat k).

(** Every connection of [l] joins two neurons of activity 1. *)
Definition pre_post_one (l : list nat) (w : World.t Q) : Prop :=
  forall cref conn,
    cref ∈ l -> World.connections w !! cref = Some conn ->
    exists from_neuron to_neuron,
      World.neurons w !! Connection.from_neuron conn = Some from_neuron /\
      World.neurons w !! Connection.to_neuron conn = Some to_neuron /\
      (Neuron.activity from_neuron == 1)%Q /\
      (Neuron.activity to_neuron == 1)%Q.



(** ** Sample states *)

(** A generator whose every draw is 0. *)
Definition no_randomness : Rng.t Q := Rng.mk (fun _ => 0%Q) (fun _ => 0%nat) 0.

(** A generator whose every [random()] is 0.5. *)
Definition even_draws : Rng.t Q := Rng.mk (fun _ => 0.5%Q) (fun _ => 0%nat) 0.

(** The fresh connection carrying one signal of strength 1, in either
    arithmetic. *)
Definition one_signal `{Num F} : Connection.t F :=
  Connection.add_signal (lit 1) (Connection.new "conn_0" 0 1).

(** The default parameters of [HebbianLearning], learning switched on. *)
Definition hebbian_on : HebbianLearning.t Q :=
  HebbianLearning.mk 0.01%Q true 0.001%Q 2%Q 0.1%Q.

(** A two-neuron world with one connection of weight 1, both neurons at
    activity 1. *)
Definition two_neuron_world (g : Rng.t Q) : World.t Q :=
  World.mk
    [Neuron.mk "a_0" "a" 1%Q 0.5%Q 0%Q 5 [0%nat] [];
     Neuron.mk "a_1" "a" 1%Q 0.5%Q 0%Q 5 [] [0%nat]]
    [Connection.new "conn_0" 0 1]
    g.

(** The network over that world: one region owning both neurons. *)
Definition two_neuron_net : Network.t Q :=
  Network.mk Network.default_bounds
    [("a", Region.mk "a" 2 [0%nat; 1%nat] 0%Q)] None [0%nat] [0%nat; 1%nat]
    0 0 0.

(** The two-neuron world again, the first neuron driven above threshold
    (as [stimulate] leaves it) and out of refractory. *)
Definition stimulated_neuron : Neuron.t Q :=
  Neuron.mk "a_0" "a" 0%Q 0.5%Q 0.7%Q 0 [0%nat] [].

Definition stimulated_world : World.t Q :=
  World.mk
    [stimulated_neuron; Neuron.mk "a_1" "a" 0%Q 0.5%Q 0%Q 0 [] [0%nat]]
    [Connection.new "conn_0" 0 1]
    no_randomness.


(** A manager whose only algorithm, "hebbian", is active and enabled. *)
Definition hebbian_manager : LearningManager.t Q :=
  LearningManager.mk (<["hebbian" := Hebbian hebbian_on]> ∅) (Some "hebbian").

(** A network with one region that owns no neuron. *)
Definition void_net : Network.t Q :=
  Network.mk Network.default_bounds [("void", Region.mk "void" 0 [] 0%Q)]
    None [] [] 0 0 0.

(** A hub of one neuron next to two region neurons, nothing connected
    yet. *)
Definition hub_world : World.t Q :=
  World.mk
    [Neuron.new "a_0" "a"; Neuron.new "a_1" "a"; Neuron.new "hub_0" "hub"]
    [] even_draws.


(** Two regions of one and two neurons, not yet connected, all of whose
    neurons exist in [hub_world]. *)
Definition unconnected_net : Network.t Q :=
  Network.mk Network.default_bounds
    [("a", Region.mk "a" 2 [0%nat; 1%nat] 0%Q);
     ("b", Region.mk "b" 1 [2%nat] 0%Q)]
    None [] [0%nat; 1%nat; 2%nat] 0 0 0.

(** The stimulated two-neuron world in binary64. *)
Definition stimulated_world_float : World.t float :=
  World.mk
    [Neuron.mk "a_0" "a" (lit 0) (lit 0.5) (lit 0.7) 0 [0%nat] [];
     Neuron.mk "a_1" "a" (lit 0) (lit 0.5) (lit 0) 0 [] [0%nat]]
    [Connection.new "conn_0" 0 1]
    (Rng.mk (fun _ => lit 0) (fun _ => 0%nat) 0).

Definition two_neuron_net_float : Network.t float :=
  Network.mk Network.default_bounds
    [("a", Region.mk "a" 2 [0%nat; 1%nat] (lit 0))] None [0%nat]
    [0%nat; 1%nat] 0 0 0.

(** * Verification *)

(** Facts about the rational instance used throughout. *)
Lemma Q_leb_spec (x y : Q) : (x <=? y)%num = true <-> (x <= y)%Q.
Proof. apply Qle_bool_iff. Qed.

Lemma Q_leb_false (x y : Q) : (x <=? y)%num = false <-> (y < x)%Q.
Proof.
  cbn. split; intros E.
  - apply Qnot_le_lt. intros L. apply Qle_bool_iff in L. congruence.
  - destruct (Qle_bool x y) eqn:B; [|done].
    apply Qle_bool_iff in B. lra.
Qed.

Lemma Q_ltb_spec (x y : Q) : (x <? y)%num = true <-> (x < y)%Q.
Proof.
  cbn. rewrite negb_true_iff. apply (Q_leb_false y x).
Qed.

Lemma Q_ltb_false (x y : Q) : (x <? y)%num = false <-> (y <= x)%Q.
Proof.
  cbn. rewrite negb_false_iff. apply Qle_bool_iff.
Qed.

(** Case analysis on a rational comparison, leaving the order fact. *)
Ltac q_cases :=
  repeat match goal with
  | |- context [Qle_bool ?x ?y] =>
      let E := fresh "E" in
      destruct (Qle_bool x y) eqn:E;
      [apply Qle_bool_iff in E | apply (Q_leb_false x y) in E]
  | |- context [@num_leb Q _ ?x ?y] =>
      let E := fresh "E" in
      destruct (@num_leb Q _ x y) eqn:E;
      [apply Q_leb_spec in E | apply Q_leb_false in E]
  | |- context [@num_ltb Q _ ?x ?y] =>
      let E := fresh "E" in
      destruct (@num_ltb Q _ x y) eqn:E;
      [apply Q_ltb_spec in E | apply Q_ltb_false in E]
  end.

Lemma Q_py_min_order (a b : Q) :
  (py_min a b <= a /\ py_min a b <= b /\ (py_min a b == a \/ py_min a b == b))%Q.
Proof. unfold py_min. q_cases; repeat split; try lra; auto with qarith. Qed.

Lemma Q_py_max_order (a b : Q) :
  (a <= py_max a b /\ b <= py_max a b /\ (py_max a b == a \/ py_max a b == b))%Q.
Proof. unfold py_max. q_cases; repeat split; try lra; auto with qarith. Qed.

Lemma Q_py_min_spec (a b : Q) :
  (py_min a b <= a /\ py_min a b <= b /\ (py_min a b = a \/ py_min a b = b))%Q.
Proof. unfold py_min. q_cases; repeat split; try lra; auto. Qed.

Lemma Q_py_max_spec (a b : Q) :
  (a <= py_max a b /\ b <= py_max a b /\ (py_max a b = a \/ py_max a b = b))%Q.
Proof. unfold py_max. q_cases; repeat split; try lra; auto. Qed.

(** Record updates are plain functions: unfold them and project. *)
Ltac record_simpl :=
  unfold Neuron._fire, Neuron.receive_input, Neuron.stimulate,
    Neuron.set_activity, Neuron.set_potential, Neuron.set_refractory,
    Neuron.set_outgoing, Neuron.set_incoming,
    Connection.add_signal,
    Connection.set_weight, Connection.set_activity, Connection.set_signals
    in *;
  cbn [fst snd Neuron.id Neuron.region_id Neuron.activity Neuron.threshold
       Neuron.potential Neuron.refractory Neuron.outgoing Neuron.incoming
       Connection.id Connection.from_neuron Connection.to_neuron
       Connection.weight Connection.activity Connection.signals
       Signal.progress Signal.strength lit Num_Q] in *.

(** ** Neuron dynamics *)

Lemma Neuron_fire_in_range (n : Neuron.t Q) :
  neuron_in_range (fst (Neuron._fire n)).
Proof. unfold neuron_in_range; record_simpl. repeat split; (lra || lia). Qed.

(** C5. If a neuron satisfies [0 <= activity <= 1] and [refractory >= 0],
    then so does the neuron after [Neuron.update], for every decay rate
    (those in [0,1] included), every potential and threshold, whether the
    neuron fires or not. *)
Theorem Neuron_update_in_range (n : Neuron.t Q) (decay_rate : Q) :
  neuron_in_range n ->
  neuron_in_range (fst (Neuron.update decay_rate n)).
Proof.
  intros (Ha0 & Ha1 & Hr).
  unfold Neuron.update.
  destruct (Z.gtb_spec (Neuron.refractory n) 0) as [Hpos|Hzero]; cbn.
  - (* refractory: countdown and activity decay *)
    destruct (_ && _); unfold neuron_in_range; record_simpl;
      repeat split; (lra || lia).
  - destruct (_ && _); unfold neuron_in_range; record_simpl;
      repeat split; (lra || lia).
Qed.

Lemma Neuron_update_in_range_witness :
  neuron_in_range
    (fst (Neuron.update 0.05%Q
         (Neuron.mk "a_0" "a" 1%Q 0.5%Q 0.7%Q 3 [] []))).
Proof.
  apply Neuron_update_in_range.
  unfold neuron_in_range; cbn. repeat split; (lra || lia).
Defined.

(** ** Signal propagation along a connection *)

Section Sweep.
Context {F : Type} `{Num F}.

(** The sweep treats every signal on its own: it distributes over
    concatenation of the signal list. *)
Lemma sweep_app (step : F) (l1 l2 : list (Signal.t F)) :
  Connection.sweep step (l1 ++ l2) =
  (fst (Connection.sweep step l1) ++ fst (Connection.sweep step l2),
   snd (Connection.sweep step l1) ++ snd (Connection.sweep step l2)).
Proof.
  induction l1 as [|s l1 IH]; cbn [app Connection.sweep].
  - now destruct (Connection.sweep step l2).
  - rewrite IH. destruct (Connection.sweep step l1) as [a1 r1].
    destruct (Connection.sweep step l2) as [a2 r2]. cbn [fst snd].
    now destruct (_ >=? _)%num.
Qed.

Lemma Connection_update_signals (m b : F) (c : Connection.t F) :
  Connection.signals (fst (Connection.update m b c)) =
    snd (Connection.sweep (b * m)%num (Connection.signals c)) /\
  snd (Connection.update m b c) =
    fst (Connection.sweep (b * m)%num (Connection.signals c)).
Proof.
  unfold Connection.update.
  now destruct (Connection.sweep _ _) as [a r].
Qed.

Lemma ticks_S (k : nat) (m : F) (c : Connection.t F) :
  Connection.ticks (S k) m c =
  Connection.update m Connection.default_base_speed
    (fst (Connection.ticks k m c)).
Proof. reflexivity. Qed.

End Sweep.

Lemma Qnat_S (k : nat) : (Qnat (S k) == Qnat k + 1)%Q.
Proof.
  unfold Qnat. rewrite Nat2Z.inj_succ, <- Z.add_1_r, inject_Z_plus.
  reflexivity.
Qed.

Lemma Qnat_le (j k : nat) : (j <= k)%nat -> (Qnat j <= Qnat k)%Q.
Proof. intros. unfold Qnat. rewrite <- Zle_Qle. lia. Qed.

(** The signal added at progress 0, after [k] ticks at speed 1, next to the
    signals that were already in flight: it has covered [k * 0.02] of the
    way, and nothing more has arrived than would have without it. *)
Lemma ticks_added_signal (c : Connection.t Q) (s : Q) (k : nat) :
  (k < 50)%nat ->
  let with_s := Connection.ticks k 1%Q (Connection.add_signal s c) in
  let without := Connection.ticks k 1%Q c in
  (exists p : Q,
     Connection.signals (fst with_s) =
       Connection.signals (fst without) ++ [Signal.mk p s] /\
     (p == Qnat k * 0.02)%Q) /\
  snd with_s = snd without.
Proof.
  induction k as [|k IH]; intros Hk.
  - cbn. split; [|done]. eexists; split; [reflexivity|].
    reflexivity.
  - destruct IH as [(p & Hsig & Hp) Harr]; [lia|].
    cbv zeta. rewrite !ticks_S.
    destruct (Connection_update_signals 1%Q Connection.default_base_speed
                (fst (Connection.ticks k 1%Q (Connection.add_signal s c))))
      as [-> ->].
    destruct (Connection_update_signals 1%Q Connection.default_base_speed
                (fst (Connection.ticks k 1%Q c))) as [-> ->].
    rewrite Hsig, sweep_app. cbn [fst snd Connection.sweep].
    record_simpl.
    pose proof (Qnat_S k) as HS.
    pose proof (Qnat_le (S k) 49 ltac:(lia)) as Hle.
    change (Qnat 49) with 49%Q in Hle.
    unfold Connection.default_base_speed. record_simpl.
    cbn [num_add num_mul num_leb Num_Q].
    q_cases; [lra|]. cbn [fst snd].
    rewrite app_nil_r. split; [|done].
    eexists; split; [reflexivity|]. lra.
Qed.

(** C4. A signal added at progress 0 on a connection that is updated every
    tick with [base_speed = 0.02] and [speed_multiplier = 1.0]:
    - during the first 49 updates ([k < 50]) it stays in the signal list, at
      progress [k * 0.02 < 1], and is not among the arrived signals;
    - the 50th update returns it as arrived, at progress [>= 1], and it is
      gone from the signal list;
    whatever else is in flight on the connection.  In IEEE binary64, where
    the fifty additions of 0.02 are rounded, the first update that returns
    the signal is the 50th as well. *)
Theorem Signal_arrives_at_tick_50 (c : Connection.t Q) (s : Q) (k : nat) :
  (k < 50)%nat ->
  let run j := Connection.ticks j 1%Q (Connection.add_signal s c) in
  let ref j := Connection.ticks j 1%Q c in
  (* in flight before the 50th update *)
  ((exists p : Q,
      Connection.signals (fst (run k)) =
        Connection.signals (fst (ref k)) ++ [Signal.mk p s] /\
      (p == Qnat k * 0.02)%Q /\ (p < 1)%Q) /\
   snd (run k) = snd (ref k)) /\
  (* arrived at the 50th update *)
  (exists p : Q,
     snd (run 50%nat) = snd (ref 50%nat) ++ [Signal.mk p s] /\
     (1 <= p)%Q /\
     Connection.signals (fst (run 50%nat)) =
       Connection.signals (fst (ref 50%nat))) /\
  (* the same run with rounding *)
  first_arrival (F := Q) 100 (lit 1) one_signal = Some 50%nat /\
  first_arrival (F := float) 100 (lit 1) one_signal = Some 50%nat /\
  Connection.signals
    (fst (Connection.ticks (F := float) 50 (lit 1) one_signal)) = [].
Proof.
  intros Hk run ref. repeat apply conj.
  - destruct (ticks_added_signal c s k Hk) as [(p & Hsig & Hp) _].
    exists p. repeat split; [exact Hsig|exact Hp|].
    pose proof (Qnat_le k 49 ltac:(lia)) as Hle.
    change (Qnat 49) with 49%Q in Hle. lra.
  - apply (ticks_added_signal c s k Hk).
  - destruct (ticks_added_signal c s 49 ltac:(lia)) as [(p & Hsig & Hp) _].
    change (Qnat 49) with 49%Q in Hp.
    subst run ref. cbv beta. change 50%nat with (S 49).
    rewrite !(ticks_S 49).
    destruct (Connection_update_signals 1%Q Connection.default_base_speed
                (fst (Connection.ticks 49 1%Q (Connection.add_signal s c))))
      as [-> ->].
    destruct (Connection_update_signals 1%Q Connection.default_base_speed
                (fst (Connection.ticks 49 1%Q c))) as [-> ->].
    rewrite Hsig, sweep_app. cbn [fst snd Connection.sweep].
    unfold Connection.default_base_speed. record_simpl.
    cbn [num_add num_mul num_leb Num_Q].
    q_cases; [|lra]. cbn [fst snd].
    eexists. split; [reflexivity|]. split; [exact E|].
    now rewrite app_nil_r.
  - vm_compute. reflexivity.
  - vm_compute. reflexivity.
  - vm_compute. reflexivity.
Qed.

Lemma Signal_arrives_at_tick_50_witness :
  first_arrival (F := float) 100 (lit 1) one_signal = Some 50%nat.
Proof.
  refine (proj1 (proj2 (proj2 (proj2
    (Signal_arrives_at_tick_50 (Connection.new "conn_0" 0 1) 1%Q 49 _))))).
  lia.
Defined.

(** ** Hebbian learning *)

Lemma hebbian_on_is_default :
  HebbianLearning.with_defaults =
  Ok (HebbianLearning.set_enabled false hebbian_on).
Proof. reflexivity. Qed.

(** Order facts for every [py_min] and [py_max] of the goal, then linear
    arithmetic. *)
Ltac q_minmax :=
  repeat match goal with
  | |- context [@py_min Q _ ?a ?b] =>
      let H := fresh "Hmin" in
      pose proof (Q_py_min_order a b) as H;
      generalize dependent (@py_min Q _ a b); intros
  | |- context [@py_max Q _ ?a ?b] =>
      let H := fresh "Hmax" in
      pose proof (Q_py_max_order a b) as H;
      generalize dependent (@py_max Q _ a b); intros
  end;
  repeat match goal with
  | H : _ /\ _ |- _ => destruct H
  | H : _ \/ _ |- _ => destruct H
  end;
  lra.

Section HebbianStep.
Variables pre post : Q.
Hypothesis Hpre : (pre == 1)%Q.
Hypothesis Hpost : (post == 1)%Q.

Lemma hebbian_step_le_max (weight : Q) :
  (HebbianLearning.step hebbian_on pre post weight <= 2)%Q.
Proof using Type.
  unfold HebbianLearning.step, hebbian_on. cbn -[py_max py_min].
  q_minmax.
Qed.

Lemma hebbian_step_increases (weight : Q) :
  (weight < 2)%Q ->
  (weight < HebbianLearning.step hebbian_on pre post weight)%Q.
Proof using Hpre Hpost.
  intros Hw.
  unfold HebbianLearning.step, hebbian_on. cbn -[py_max py_min].
  assert (Hx : (weight + (0.01 * pre * post - 0.001 * (weight - 1))
                == 0.999 * weight + 0.011)%Q).
  { rewrite Hpre, Hpost. ring. }
  revert Hx. q_minmax.
Qed.

Lemma hebbian_step_mono (weight : Q) :
  (weight <= 2)%Q ->
  (weight <= HebbianLearning.step hebbian_on pre post weight)%Q.
Proof using Hpre Hpost.
  intros Hw.
  unfold HebbianLearning.step, hebbian_on. cbn -[py_max py_min].
  assert (Hx : (weight + (0.01 * pre * post - 0.001 * (weight - 1))
                == 0.999 * weight + 0.011)%Q).
  { rewrite Hpre, Hpost. ring. }
  revert Hx. q_minmax.
Qed.
End HebbianStep.

(** One iteration of the Hebbian loop: only the weight of the connection
    at hand changes, to [step] of its old value. *)
Lemma hebbian_update_connection (w : World.t Q) (x : nat) :
  pre_post_one [x] w ->
  let w1 := HebbianLearning.update_connection hebbian_on w x in
  World.neurons w1 = World.neurons w /\
  forall i c, World.connections w !! i = Some c ->
    exists c1, World.connections w1 !! i = Some c1 /\
      Connection.from_neuron c1 = Connection.from_neuron c /\
      Connection.to_neuron c1 = Connection.to_neuron c /\
      (i <> x -> c1 = c) /\
      (i = x -> exists pre post, (pre == 1)%Q /\ (post == 1)%Q /\
         Connection.weight c1 =
           HebbianLearning.step hebbian_on pre post (Connection.weight c)).
Proof.
  intros Hact w1. subst w1. unfold HebbianLearning.update_connection.
  destruct (World.connections w !! x) as [conn|] eqn:Hx.
  - destruct (Hact x conn) as (nf & nt & -> & -> & Hf & Ht);
      [set_solver|done|].
    split; [done|]. intros i c Hi. cbn.
    destruct (decide (i = x)) as [->|Hne].
    + rewrite list_lookup_alter_eq, Hx. cbn. eexists. split; [done|].
      assert (c = conn) as -> by congruence.
      repeat split; [done|]. intros _. eauto.
    + rewrite list_lookup_alter_ne by done. exists c.
      repeat split; [done..|]. done.
  - split; [done|]. intros i c Hi. exists c. repeat split; [done..|].
    intros ->. congruence.
Qed.

Lemma hebbian_fold (l : list nat) (w : World.t Q) :
  pre_post_one l w ->
  let w' := fold_left (HebbianLearning.update_connection hebbian_on) l w in
  World.neurons w' = World.neurons w /\
  forall i c, World.connections w !! i = Some c ->
    exists c', World.connections w' !! i = Some c' /\
      Connection.from_neuron c' = Connection.from_neuron c /\
      Connection.to_neuron c' = Connection.to_neuron c /\
      ((Connection.weight c <= 2)%Q ->
       (Connection.weight c <= Connection.weight c')%Q /\
       (Connection.weight c' <= 2)%Q) /\
      (i ∈ l ->
       (Connection.weight c' <= 2)%Q /\
       ((Connection.weight c < 2)%Q ->
        (Connection.weight c < Connection.weight c')%Q)).
Proof.
  revert w. induction l as [|x l IH]; intros w Hact; cbn.
  - split; [done|]. intros i c Hi. exists c. repeat split; try done.
    + lra.
    + set_solver.
    + set_solver.
  - destruct (hebbian_update_connection w x) as [Hn1 Hc1].
    { intros cref conn Hin. apply Hact.
      apply list_elem_of_singleton in Hin as ->. apply elem_of_cons; auto. }
    set (w1 := HebbianLearning.update_connection hebbian_on w x) in *.
    destruct (IH w1) as [Hn' Hc'].
    { intros cref conn Hin Hlook.
      (* the connection was already there, with the same end points *)
      assert (exists c0, World.connections w !! cref = Some c0 /\
                Connection.from_neuron conn = Connection.from_neuron c0 /\
                Connection.to_neuron conn = Connection.to_neuron c0)
        as (c0 & Hc0 & Hf0 & Ht0).
      { destruct (World.connections w !! cref) as [c0|] eqn:E.
        - destruct (Hc1 cref c0 E) as (c1 & Hl1 & ? & ? & _).
          exists c0. split; [done|]. split; congruence.
        - exfalso.
          assert (Hlen : length (World.connections w1) =
                         length (World.connections w)).
          { unfold w1, HebbianLearning.update_connection.
            repeat case_match; try done. cbn. apply length_alter. }
          apply lookup_ge_None in E. apply lookup_lt_Some in Hlook. lia. }
      rewrite Hn1, Hf0, Ht0.
      apply (Hact cref c0); [apply elem_of_cons; auto|done]. }
    split; [congruence|]. intros i c Hi.
    destruct (Hc1 i c Hi) as (c1 & Hl1 & Hf1 & Ht1 & Hother & Hself).
    destruct (Hc' i c1 Hl1) as (c' & Hl' & Hf' & Ht' & Hmono & Hin').
    exists c'. split; [done|]. split; [congruence|]. split; [congruence|].
    (* the effect of the first iteration on connection [i] *)
    assert (Hfirst : ((Connection.weight c <= 2)%Q ->
                      (Connection.weight c <= Connection.weight c1)%Q) /\
                     ((Connection.weight c <= 2)%Q ->
                      (Connection.weight c1 <= 2)%Q) /\
                     (i = x -> (Connection.weight c1 <= 2)%Q /\
                        ((Connection.weight c < 2)%Q ->
                         (Connection.weight c < Connection.weight c1)%Q))).
    { destruct (decide (i = x)) as [E|E].
      - destruct (Hself E) as (pre & post & Hpre & Hpost & ->).
        pose proof (hebbian_step_le_max pre post (Connection.weight c)).
        pose proof (hebbian_step_mono pre post Hpre Hpost (Connection.weight c)).
        pose proof (hebbian_step_increases pre post Hpre Hpost
                      (Connection.weight c)).
        tauto.
      - rewrite (Hother E). repeat split; try done; lra. }
    destruct Hfirst as (Hm1 & Hb1 & Hx1).
    split.
    + intros Hle. specialize (Hm1 Hle). specialize (Hb1 Hle).
      destruct (Hmono Hb1). split; lra.
    + intros Hin. apply elem_of_cons in Hin as [E|Hin].
      * destruct (Hx1 E) as [Hb Hs]. destruct (Hmono Hb) as [Hm Hb'].
        split; [done|]. intros Hlt. specialize (Hs Hlt). lra.
      * destruct (Hin' Hin) as [Hb Hs]. split; [done|]. intros Hlt.
        assert (Hle : (Connection.weight c <= 2)%Q) by lra.
        specialize (Hm1 Hle).
        destruct (Qlt_le_dec (Connection.weight c1) 2) as [Hlt1|Hge1].
        -- specialize (Hs Hlt1). lra.
        -- specialize (Hb1 Hle).
           (* the first iteration already reached the maximum *)
           destruct (Hmono Hb1). lra.
Qed.

(** C6. [HebbianLearning.update], when the algorithm is disabled, leaves
    the world, hence every connection weight, unchanged.  When enabled with
    the default parameters (learning rate 0.01, decay rate 0.001, maximal
    weight 2.0, minimal weight 0.1) on a network all of whose connections
    have pre- and postsynaptic activity 1.0, one call leaves no weight of
    the network above the maximal weight and strictly increases every
    weight that starts in [min_weight, max_weight). *)
Theorem Hebbian_update_weights (net : Network.t Q) (w : World.t Q) :
  (forall a : HebbianLearning.t Q,
     HebbianLearning.enabled a = false ->
     HebbianLearning.update a net w = w) /\
  (pre_post_one (Network.connections net) w ->
   forall cref conn,
     cref ∈ Network.connections net ->
     World.connections w !! cref = Some conn ->
     exists conn',
       World.connections (HebbianLearning.update hebbian_on net w) !! cref
         = Some conn' /\
       (Connection.weight conn' <= HebbianLearning.max_weight hebbian_on)%Q /\
       ((HebbianLearning.min_weight hebbian_on <= Connection.weight conn)%Q ->
        (Connection.weight conn < HebbianLearning.max_weight hebbian_on)%Q ->
        (Connection.weight conn < Connection.weight conn')%Q)).
Proof.
  split.
  - intros a Hoff. unfold HebbianLearning.update. now rewrite Hoff.
  - intros Hact cref conn Hin Hlook.
    unfold HebbianLearning.update. cbn [HebbianLearning.enabled hebbian_on negb].
    destruct (hebbian_fold (Network.connections net) w Hact) as [_ Hc].
    destruct (Hc cref conn Hlook) as (conn' & Hl' & _ & _ & _ & Htouched).
    destruct (Htouched Hin) as [Hmax Hinc].
    exists conn'. split; [exact Hl'|]. split; [exact Hmax|].
    intros _ Hlt. exact (Hinc Hlt).
Qed.

Lemma Hebbian_update_weights_witness :
  exists conn',
    World.connections
      (HebbianLearning.update hebbian_on two_neuron_net
         (two_neuron_world no_randomness)) !! 0%nat = Some conn' /\
    (Connection.weight conn' <= 2)%Q /\
    (1 < Connection.weight conn')%Q.
Proof.
  destruct (proj2 (Hebbian_update_weights two_neuron_net
                     (two_neuron_world no_randomness)))
    with (cref := 0%nat) (conn := Connection.new (F := Q) "conn_0" 0 1)
    as (conn' & Hl & Hmax & Hinc).
  - intros cref conn Hin Hlook.
    apply list_elem_of_singleton in Hin as ->.
    injection Hlook as <-. cbn.
    eexists _, _. repeat split; reflexivity.
  - apply list_elem_of_singleton. reflexivity.
  - reflexivity.
  - exists conn'. split; [exact Hl|]. split; [exact Hmax|].
    apply Hinc; cbn; lra.
Defined.

(** ** A program logic for world computations *)

Section Wp.
Context {F : Type}.
Local Open Scope m_scope.

Lemma wp_mono {A} (m : M A) (Q Q' : A -> World.t F -> list Event -> Prop) w :
  (forall a w' l, Q a w' l -> Q' a w' l) -> wp m Q w -> wp m Q' w.
Proof. unfold wp. auto. Qed.

Lemma wp_ret {A} (a : A) (Q : A -> World.t F -> list Event -> Prop) w :
  Q a w [] -> wp (ret a) Q w.
Proof. done. Qed.

Lemma wp_bind {A B} (m : M A) (k : A -> M B)
    (Q : B -> World.t F -> list Event -> Prop) w :
  wp m (fun a w1 l1 => wp (k a) (fun b w2 l2 => Q b w2 (l1 ++ l2)) w1) w ->
  wp (bind m k) Q w.
Proof.
  unfold wp, bind, result, world, events.
  destruct (m w) as [[a w1] l1]. cbn.
  now destruct (k a w1) as [[b w2] l2].
Qed.

Lemma wp_get (Q : World.t F -> World.t F -> list Event -> Prop) w :
  Q w w [] -> wp get Q w.
Proof. done. Qed.

Lemma wp_modify f (Q : unit -> World.t F -> list Event -> Prop) w :
  Q tt (f w) [] -> wp (modify f) Q w.
Proof. done. Qed.

Lemma wp_emit e (Q : unit -> World.t F -> list Event -> Prop) w :
  Q tt w [e] -> wp (emit e) Q w.
Proof. done. Qed.

Lemma wp_random (Q : F -> World.t F -> list Event -> Prop) w :
  Q (Rng.random_at (World.rng w) (Rng.pos (World.rng w)))
    (World.set_rng (Rng.advance (World.rng w)) w) [] ->
  wp random Q w.
Proof. done. Qed.

(** The loop rule: an invariant over the elements already visited, the
    local variables, the world and the events so far. *)
Lemma wp_fold_each_prefix {A Acc} (xs : list A) (body : A -> Acc -> M Acc)
    (Inv : list A -> Acc -> World.t F -> list Event -> Prop) acc w :
  Inv [] acc w [] ->
  (forall visited x rest acc w l,
     xs = visited ++ x :: rest ->
     Inv visited acc w l ->
     wp (body x acc) (fun acc' w' l' => Inv (visited ++ [x]) acc' w' (l ++ l')) w) ->
  wp (fold_each xs acc body) (Inv xs) w.
Proof.
  intros H0 Hstep.
  enough (Hgen : forall rest visited acc w l,
            xs = visited ++ rest -> Inv visited acc w l ->
            wp (fold_each rest acc body)
               (fun acc' w' l' => Inv xs acc' w' (l ++ l')) w).
  { apply (Hgen xs [] acc w []); [done|exact H0]. }
  clear H0 acc w. intros rest.
  induction rest as [|x rest IH]; intros visited acc w l Hxs HI; cbn.
  - apply wp_ret. rewrite !app_nil_r in *. now subst.
  - apply wp_bind.
    eapply wp_mono; [|apply (Hstep visited x rest acc w l Hxs HI)].
    intros acc' w' l' HI'. cbn beta.
    eapply wp_mono; [|apply (IH (visited ++ [x]) acc' w' (l ++ l'))].
    + intros a w2 l2. now rewrite app_assoc.
    + now rewrite <- app_assoc.
    + exact HI'.
Qed.

Lemma wp_fold_each {A Acc} (xs : list A) (body : A -> Acc -> M Acc)
    (Inv : Acc -> World.t F -> list Event -> Prop) acc w :
  Inv acc w [] ->
  (forall x acc w l,
     x ∈ xs -> Inv acc w l ->
     wp (body x acc) (fun acc' w' l' => Inv acc' w' (l ++ l')) w) ->
  wp (fold_each xs acc body) Inv w.
Proof.
  intros H0 Hstep.
  apply (wp_fold_each_prefix xs body (fun _ => Inv)); [exact H0|].
  intros visited x rest acc' w' l -> HI. apply Hstep; [|exact HI].
  apply elem_of_app. right. apply elem_of_cons. now left.
Qed.

Lemma wp_for_each_prefix {A} (xs : list A) (body : A -> M unit)
    (Inv : list A -> World.t F -> list Event -> Prop) w :
  Inv [] w [] ->
  (forall visited x rest w l,
     xs = visited ++ x :: rest ->
     Inv visited w l ->
     wp (body x) (fun _ w' l' => Inv (visited ++ [x]) w' (l ++ l')) w) ->
  wp (for_each xs body) (fun _ => Inv xs) w.
Proof.
  intros H0 Hstep.
  enough (Hgen : forall rest visited w l,
            xs = visited ++ rest -> Inv visited w l ->
            wp (for_each rest body)
               (fun _ w' l' => Inv xs w' (l ++ l')) w).
  { apply (Hgen xs [] w []); [done|exact H0]. }
  clear H0 w. intros rest.
  induction rest as [|x rest IH]; intros visited w l Hxs HI; cbn.
  - apply wp_ret. rewrite !app_nil_r in *. now subst.
  - apply wp_bind.
    eapply wp_mono; [|apply (Hstep visited x rest w l Hxs HI)].
    intros [] w' l' HI'. cbn beta.
    eapply wp_mono; [|apply (IH (visited ++ [x]) w' (l ++ l'))].
    + intros a w2 l2. now rewrite app_assoc.
    + now rewrite <- app_assoc.
    + exact HI'.
Qed.

Lemma wp_for_each {A} (xs : list A) (body : A -> M unit)
    (Inv : World.t F -> list Event -> Prop) w :
  Inv w [] ->
  (forall x w l,
     x ∈ xs -> Inv w l ->
     wp (body x) (fun _ w' l' => Inv w' (l ++ l')) w) ->
  wp (for_each xs body) (fun _ => Inv) w.
Proof.
  intros H0 Hstep.
  apply (wp_for_each_prefix xs body (fun _ => Inv)); [exact H0|].
  intros visited x rest w' l -> HI. apply Hstep; [|exact HI].
  apply elem_of_app. right. apply elem_of_cons. now left.
Qed.
End Wp.

(** ** The tick leaves the weights alone *)

Section Weights.
Context {F : Type} `{Num F}.
Local Open Scope m_scope.

Lemma weights_alter_neuron f r (w : World.t F) :
  weights (World.alter_neuron f r w) = weights w.
Proof. reflexivity. Qed.

Lemma weights_alter_connection f r (w : World.t F) :
  (forall c, World.connections w !! r = Some c ->
             Connection.weight (f c) = Connection.weight c) ->
  weights (World.alter_connection f r w) = weights w.
Proof.
  intros Hf. unfold weights, World.alter_connection. cbn.
  apply list_eq. intros i.
  change (map Connection.weight) with (fmap (M := list) (@Connection.weight F)).
  rewrite !list_lookup_fmap, list_lookup_alter.
  destruct (decide (r = i)) as [->|]; [|done].
  destruct (World.connections w !! i) as [c|] eqn:E; [|done].
  cbn. now rewrite Hf.
Qed.

Lemma Connection_update_weight (m b : F) (c : Connection.t F) :
  Connection.weight (fst (Connection.update m b c)) = Connection.weight c.
Proof.
  unfold Connection.update. now destruct (Connection.sweep _ _).
Qed.

Lemma advance_connection_weights (m : F) (cref : nat) (w : World.t F) :
  wp (Network.advance_connection m cref)
     (fun _ w' _ => weights w' = weights w) w.
Proof.
  unfold Network.advance_connection.
  apply wp_bind, wp_get.
  destruct (World.connections w !! cref) as [conn|] eqn:E; [|now apply wp_ret].
  pose proof (Connection_update_weight m Connection.default_base_speed conn)
    as Hw.
  destruct (Connection.update m Connection.default_base_speed conn)
    as [conn' arrived]. cbn [fst] in Hw.
  apply wp_bind, wp_modify, wp_bind, wp_emit.
  eapply wp_mono;
    [|apply (wp_for_each _ _ (fun w' _ => weights w' = weights w))].
  - now intros [] w' l.
  - apply weights_alter_connection. intros c Hc. congruence.
  - intros signal w' l _ Hw'.
    apply wp_bind, wp_modify, wp_emit. exact Hw'.
Qed.

Lemma Region_update_weights (r : Region.t F) (w : World.t F) :
  wp (Region.update r) (fun _ w' _ => weights w' = weights w) w.
Proof.
  unfold Region.update. apply wp_bind.
  eapply wp_mono;
    [|apply (wp_fold_each _ _ (fun _ w' _ => weights w' = weights w))].
  - intros total w' l Hw'. now apply wp_ret.
  - reflexivity.
  - intros ref total w' l _ Hw'. unfold Region.update_neuron.
    apply wp_bind, wp_get.
    destruct (World.neurons w' !! ref); [|now apply wp_ret].
    apply wp_bind, wp_modify, wp_bind, wp_emit, wp_ret. exact Hw'.
Qed.

Lemma emit_signals_weights (nref : nat) (total : Z) (w : World.t F) :
  wp (Network.emit_signals nref total)
     (fun _ w' _ => weights w' = weights w) w.
Proof.
  unfold Network.emit_signals. apply wp_bind, wp_get.
  destruct (World.neurons w !! nref) as [neuron|]; [|now apply wp_ret].
  destruct (_ >? _)%num; [|now apply wp_ret].
  apply (wp_fold_each _ _ (fun _ w' _ => weights w' = weights w)).
  - reflexivity.
  - intros cref total' w' l _ Hw'.
    apply wp_bind, wp_modify, wp_bind, wp_emit, wp_ret.
    rewrite <- Hw'. now apply weights_alter_connection.
Qed.

Lemma update_region_weights entry acc (w : World.t F) :
  wp (Network.update_region entry acc)
     (fun _ w' _ => weights w' = weights w) w.
Proof.
  destruct entry as [region_id region], acc as [regions total].
  unfold Network.update_region. apply wp_bind.
  eapply wp_mono; [|apply Region_update_weights].
  intros region' w1 l1 Hw1. cbn beta. apply wp_bind.
  eapply wp_mono;
    [|apply (wp_fold_each _ _ (fun _ w' _ => weights w' = weights w))].
  - intros total' w' l Hw'. now apply wp_ret.
  - exact Hw1.
  - intros nref total' w' l _ Hw'.
    eapply wp_mono; [|apply emit_signals_weights]. cbn beta. congruence.
Qed.

Lemma Network_update_weights_wp (m : F) (net : Network.t F) (w : World.t F) :
  wp (Network.update m net) (fun _ w' _ => weights w' = weights w) w.
Proof.
  unfold Network.update. apply wp_bind.
  eapply wp_mono;
    [|apply (wp_for_each _ _ (fun w' _ => weights w' = weights w))].
  - intros [] w1 l1 Hw1. apply wp_bind.
    eapply wp_mono;
      [|apply (wp_fold_each _ _ (fun _ w' _ => weights w' = weights w))].
    + intros acc w2 l2 Hw2. cbn beta.
      unfold Network.count_active.
      apply wp_bind, wp_bind, wp_get, wp_ret, wp_ret. exact Hw2.
    + exact Hw1.
    + intros entry acc w' l _ Hw'.
      eapply wp_mono; [|apply update_region_weights]. cbn beta. congruence.
  - reflexivity.
  - intros cref w' l _ Hw'.
    eapply wp_mono; [|apply advance_connection_weights]. cbn beta. congruence.
Qed.
End Weights.

(** C10. For every network, every world (the state of all its neurons and
    connections) and every speed multiplier, one call of [Network.update]
    leaves the weight of every connection object unchanged.  It holds in
    every arithmetic: the tick never computes with a weight except to read
    it when delivering input. *)
Theorem Network_update_preserves_weights
    {F : Type} `{Num F} (speed_multiplier : F) (net : Network.t F)
    (w : World.t F) :
  map Connection.weight
      (World.connections (world (Network.update speed_multiplier net w))) =
  map Connection.weight (World.connections w).
Proof. apply (Network_update_weights_wp speed_multiplier net w). Qed.

(** ** The order of events within a tick *)


Section TickSpec.
Context {F : Type} `{Num F}.
Local Open Scope m_scope.






End TickSpec.

Section TickLogic.
Context {F : Type} `{Num F}.
Local Open Scope m_scope.












End TickLogic.

Section RegionEvents.
Context {F : Type} `{Num F}.





End RegionEvents.

Section ConnectionPhase.
Context {F : Type} `{Num F}.
Local Open Scope m_scope.



End ConnectionPhase.







(** The first tick of the stimulated world, event by event: the only
    connection is advanced, both neurons are updated, and the neuron that
    was above threshold then emits. *)
Example first_tick_events :
  events (Network.update 1%Q two_neuron_net stimulated_world) =
  [ConnectionAdvanced 0; NeuronUpdated 0; NeuronUpdated 1; SignalEmitted 0 0].
Proof. vm_compute. reflexivity. Qed.

(** From there the signal is delivered to the second neuron in the 51st
    tick and in no earlier one: one tick to fire and emit, fifty to
    travel.  The same holds in binary64. *)
Example delivery_after_one_plus_fifty_ticks :
  map delivers (tick_events 51 1%Q two_neuron_net stimulated_world) =
    replicate 50 false ++ [true] /\
  map delivers
      (tick_events 51 (lit 1) two_neuron_net_float stimulated_world_float) =
    replicate 50 false ++ [true].
Proof. split; vm_compute; reflexivity. Qed.

(** ** Topology generation *)

Section Wiring.
Context {F : Type} `{Num F}.
Local Open Scope m_scope.

Lemma refs_from_snoc (p : Connection.t F -> bool) i cs c :
  refs_from p i (cs ++ [c]) =
  refs_from p i cs ++ (if p c then [(i + length cs)%nat] else []).
Proof.
  revert i. induction cs as [|c0 cs IH]; intros i; cbn.
  - rewrite Nat.add_0_r. now rewrite app_nil_r.
  - rewrite IH, <- app_assoc.
    now replace (S i + length cs)%nat with (i + S (length cs))%nat by lia.
Qed.

Lemma refs_from_count (p : Connection.t F -> bool) i cs x :
  count_occ Nat.eq_dec (refs_from p i cs) x =
  match cs !! (x - i)%nat with
  | Some c => if p c && (i <=? x)%nat then 1%nat else 0%nat
  | None => 0%nat
  end.
Proof.
  revert i. induction cs as [|c cs IH]; intros i; cbn [refs_from].
  - now rewrite lookup_nil.
  - rewrite count_occ_app, IH.
    destruct (lt_eq_lt_dec x i) as [[Hlt| ->]|Hgt].
    + replace (x - i)%nat with O by lia. cbn [lookup list_lookup].
      replace (x - S i)%nat with O by lia.
      replace (i <=? x)%nat with false by (symmetry; apply Nat.leb_gt; lia).
      replace (S i <=? x)%nat with false by (symmetry; apply Nat.leb_gt; lia).
      destruct (cs !! O) as [c0|]; rewrite ?andb_false_r;
        destruct (p c); cbn; try destruct (Nat.eq_dec i x); lia.
    + replace (i - i)%nat with O by lia. cbn [lookup list_lookup].
      replace (i - S i)%nat with O by lia.
      rewrite Nat.leb_refl, andb_true_r.
      replace (S i <=? i)%nat with false by (symmetry; apply Nat.leb_gt; lia).
      destruct (cs !! O) as [c0|]; rewrite ?andb_false_r;
        destruct (p c); cbn; try destruct (Nat.eq_dec i i); lia.
    + replace (x - i)%nat with (S (x - S i)) by lia. cbn [lookup list_lookup].
      replace (i <=? x)%nat with true by (symmetry; apply Nat.leb_le; lia).
      replace (S i <=? x)%nat with true by (symmetry; apply Nat.leb_le; lia).
      destruct (p c); cbn; try destruct (Nat.eq_dec i x); try lia;
        reflexivity.
Qed.

Lemma refs_where_count (p : Connection.t F -> bool) cs x :
  count_occ Nat.eq_dec (refs_where p cs) x =
  match cs !! x with
  | Some c => if p c then 1%nat else 0%nat
  | None => 0%nat
  end.
Proof.
  unfold refs_where. rewrite refs_from_count, Nat.sub_0_r.
  destruct (cs !! x); [|done]. now rewrite andb_true_r.
Qed.

Lemma wired_set_rng refs g (w : World.t F) :
  wired refs w -> wired refs (World.set_rng g w).
Proof. done. Qed.

Lemma connect_spec prefix (n1 n2 : nat) acc (w : World.t F) :
  wired (fst acc) w ->
  (n1 < length (World.neurons w))%nat ->
  (n2 < length (World.neurons w))%nat ->
  wp (connect prefix n1 n2 acc)
     (fun acc' w' _ =>
        wired (fst acc') w' /\
        length (World.neurons w') = length (World.neurons w))
     w.
Proof.
  destruct acc as [refs conn_id]. intros (Hrefs & Hlists & Hends) H1 H2.
  unfold connect.
  apply wp_bind, wp_get, wp_bind, wp_modify, wp_bind, wp_modify, wp_bind,
    wp_modify, wp_ret.
  unfold wired, World.alter_neuron, World.set_neurons, World.set_connections.
  cbn [fst World.neurons World.connections] in *.
  split; [|now rewrite !length_alter].
  repeat apply conj.
  - rewrite length_app. cbn [length]. rewrite Nat.add_1_r, seq_S, Hrefs.
    reflexivity.
  - intros r n Hn. unfold refs_where. rewrite !refs_from_snoc.
    cbn [Connection.new Connection.from_neuron Connection.to_neuron].
    rewrite list_lookup_alter in Hn.
    destruct (decide (n2 = r)) as [->|Hne2].
    + (* the destination neuron, possibly also the source *)
      destruct (alter _ n1 (World.neurons w) !! r) as [n'|] eqn:Hn';
        [|done].
      injection Hn as <-. rewrite Nat.eqb_refl.
      rewrite list_lookup_alter in Hn'.
      destruct (decide (n1 = r)) as [->|Hne1].
      * destruct (World.neurons w !! r) as [n0|] eqn:Hn0; [|done].
        injection Hn' as <-. rewrite Nat.eqb_refl.
        record_simpl. destruct (Hlists r n0 Hn0) as [-> ->]. done.
      * apply Nat.eqb_neq in Hne1 as Hb. rewrite Hb, app_nil_r.
        record_simpl. destruct (Hlists r n' Hn') as [-> ->]. done.
    + apply Nat.eqb_neq in Hne2 as Hb2. rewrite Hb2, app_nil_r.
      rewrite list_lookup_alter in Hn.
      destruct (decide (n1 = r)) as [->|Hne1].
      * destruct (World.neurons w !! r) as [n0|] eqn:Hn0; [|done].
        injection Hn as <-. rewrite Nat.eqb_refl.
        record_simpl. destruct (Hlists r n0 Hn0) as [-> ->]. done.
      * apply Nat.eqb_neq in Hne1 as Hb. rewrite Hb, app_nil_r.
        record_simpl. destruct (Hlists r n Hn) as [-> ->]. done.
  - intros i c Hc. rewrite !length_alter.
    apply lookup_app_Some in Hc as [Hc|[_ Hc]]; [now apply (Hends i)|].
    apply list_lookup_singleton_Some in Hc as [_ <-]. done.
Qed.

Lemma maybe_connect_spec N (p : F) (n1 n2 : nat) acc (w : World.t F) l :
  wiring N acc w l -> (n1 < N)%nat -> (n2 < N)%nat ->
  wp (r <- random ;;
      if (r <? p)%num then connect "conn_" n1 n2 acc else ret acc)%M
     (fun acc' w' l' => wiring N acc' w' (l ++ l')) w.
Proof.
  intros [Hw HN] H1 H2. apply wp_bind, wp_random.
  destruct (_ <? _)%num.
  - eapply wp_mono; [|apply connect_spec].
    + intros acc' w' l' [Hw' HN']. split; [exact Hw'|]. now rewrite HN'.
    + exact Hw.
    + cbn. now rewrite HN.
    + cbn. now rewrite HN.
  - apply wp_ret. split; [exact Hw|exact HN].
Qed.

Lemma connect_pairs_spec N (p : F) (ns1 ns2 : list nat) acc (w : World.t F) l :
  Forall (fun r => (r < N)%nat) ns1 -> Forall (fun r => (r < N)%nat) ns2 ->
  wiring N acc w l ->
  wp (Network.connect_pairs p ns1 ns2 acc)
     (fun acc' w' l' => wiring N acc' w' (l ++ l')) w.
Proof.
  intros H1 H2 Hw. unfold Network.connect_pairs.
  eapply wp_mono; [|apply (wp_fold_each _ _ (wiring N))].
  - intros acc' w' l' Hw'. exact Hw'.
  - exact Hw.
  - intros n1 acc1 w1 l1 Hn1 Hw1.
    eapply wp_mono; [|apply (wp_fold_each _ _ (wiring N))].
    + intros acc' w' l' Hw'. exact Hw'.
    + exact Hw1.
    + intros n2 acc2 w2 l2 Hn2 Hw2.
      apply (maybe_connect_spec N); [exact Hw2| |].
      * rewrite Forall_forall in H1. auto.
      * rewrite Forall_forall in H2. auto.
Qed.

Lemma inter_region_spec N (rs : list (string * Region.t F)) acc
    (w : World.t F) l :
  regions_within N rs -> wiring N acc w l ->
  wp (Network.inter_region rs acc)
     (fun acc' w' l' => wiring N acc' w' (l ++ l')) w.
Proof.
  revert acc w l. induction rs as [|[id1 r1] rest IH]; intros acc w l Hrs Hw.
  - now apply wp_ret.
  - apply Forall_cons in Hrs as [Hr1 Hrest]. cbn [Network.inter_region].
    apply wp_bind.
    eapply wp_mono; [|apply (wp_fold_each _ _ (wiring N))].
    + intros acc1 w1 l1 Hw1. cbn beta.
      eapply wp_mono; [|apply (IH acc1 w1 l1 Hrest Hw1)].
      intros acc2 w2 l2 Hw2. exact Hw2.
    + exact Hw.
    + intros [id2 r2] acc1 w1 l1 Hin Hw1.
      apply (connect_pairs_spec N); [exact Hr1| |exact Hw1].
      unfold regions_within in Hrest. rewrite Forall_forall in Hrest.
      apply (Hrest _ Hin).
Qed.

Lemma elem_of_enumerate {A} (i : nat) (x : A) (l : list A) :
  (i, x) ∈ imap (fun i x => (i, x)) l -> x ∈ l.
Proof.
  intros Hin. apply elem_of_lookup_imap_1 in Hin as (j & y & [= -> ->] & Hl).
  now apply list_elem_of_lookup_2 in Hl.
Qed.

Lemma create_connections_spec N (net : Network.t F) (w : World.t F) :
  regions_within N (Network.regions net) ->
  wired (Network.connections net) w -> length (World.neurons w) = N ->
  wp (Network._create_connections net)
     (fun net' w' _ =>
        wired (Network.connections net') w' /\
        length (World.neurons w') = N /\
        Network.regions net' = Network.regions net)
     w.
Proof.
  intros Hrs Hw HN. unfold Network._create_connections. apply wp_bind.
  eapply wp_mono; [|apply (wp_fold_each _ _ (wiring N))].
  - intros acc1 w1 l1 Hw1. cbn beta. apply wp_bind.
    eapply wp_mono; [|apply (inter_region_spec N _ acc1 w1 l1 Hrs Hw1)].
    intros acc2 w2 l2 [Hw2 HN2]. cbn beta. apply wp_ret.
    split; [exact Hw2|]. split; [exact HN2|reflexivity].
  - split; [exact Hw|exact HN].
  - intros [region_id region] acc1 w1 l1 Hin Hw1.
    assert (Hregion : Forall (fun r => (r < N)%nat) (Region.neurons region)).
    { unfold regions_within in Hrs. rewrite Forall_forall in Hrs.
      apply (Hrs _ Hin). }
    rewrite Forall_forall in Hregion.
    eapply wp_mono; [|apply (wp_fold_each _ _ (wiring N))].
    + intros acc' w' l' Hw'. exact Hw'.
    + exact Hw1.
    + intros [i n1] acc2 w2 l2 Hn1 Hw2. apply elem_of_enumerate in Hn1.
      eapply wp_mono; [|apply (wp_fold_each _ _ (wiring N))].
      * intros acc' w' l' Hw'. exact Hw'.
      * exact Hw2.
      * intros [j n2] acc3 w3 l3 Hn2 Hw3. apply elem_of_enumerate in Hn2.
        destruct (bool_decide (i ≠ j)).
        -- apply (maybe_connect_spec N); auto.
        -- apply wp_ret. now rewrite app_nil_r.
Qed.
End Wiring.

Section Construction.
Context {F : Type} `{Num F}.
Local Open Scope m_scope.

Lemma pristine_wired (w : World.t F) : pristine w -> wired [] w.
Proof.
  intros [Hc Hn]. unfold wired. rewrite Hc. rewrite Forall_forall in Hn.
  split; [done|]. split.
  - intros r n Hr. apply list_elem_of_lookup_2 in Hr.
    destruct (Hn _ Hr) as [-> ->]. done.
  - intros i c Hi. now rewrite lookup_nil in Hi.
Qed.

Lemma regions_within_mono N N' (rs : list (string * Region.t F)) :
  (N <= N')%nat -> regions_within N rs -> regions_within N' rs.
Proof.
  intros Hle Hrs. unfold regions_within in *.
  eapply Forall_impl; [exact Hrs|]. intros entry Hentry. cbn beta in *.
  eapply Forall_impl; [exact Hentry|]. intros r. cbn beta. lia.
Qed.

Lemma regions_within_dict_set N id (r : Region.t F) rs :
  Forall (fun x => (x < N)%nat) (Region.neurons r) ->
  regions_within N rs -> regions_within N (dict_set id r rs).
Proof.
  intros Hr. unfold regions_within.
  induction rs as [|[id' r'] rs IH]; intros Hrs; cbn [dict_set].
  - now repeat constructor.
  - apply Forall_cons in Hrs as [Hr' Hrs].
    destruct (String.eqb id' id); constructor; auto.
Qed.

Lemma generate_neurons_spec (r0 : Region.t F) (w : World.t F) :
  pristine w ->
  Forall (fun x => (x < length (World.neurons w))%nat) (Region.neurons r0) ->
  wp (Region.generate_neurons r0)
     (fun r w' _ =>
        pristine w' /\
        (length (World.neurons w) <= length (World.neurons w'))%nat /\
        Forall (fun x => (x < length (World.neurons w'))%nat)
               (Region.neurons r))
     w.
Proof.
  intros Hp Hr0. unfold Region.generate_neurons.
  apply (wp_fold_each _ _
           (fun r w' _ =>
              pristine w' /\
              (length (World.neurons w) <= length (World.neurons w'))%nat /\
              Forall (fun x => (x < length (World.neurons w'))%nat)
                     (Region.neurons r))).
  - auto.
  - intros i r w' l _ ([Hc Hn] & Hlen & Hr).
    apply wp_bind, wp_random, wp_bind, wp_random, wp_bind, wp_random.
    unfold Region.alloc_neuron.
    apply wp_bind, wp_bind, wp_get, wp_bind, wp_modify, wp_ret, wp_ret.
    cbn. rewrite length_app. cbn. repeat split.
    + exact Hc.
    + apply Forall_app. split; [exact Hn|]. now repeat constructor.
    + lia.
    + apply Forall_app. split.
      * eapply Forall_impl; [exact Hr|]. intros x. cbn beta. lia.
      * repeat constructor. lia.
Qed.

Lemma collect_neurons_frame (rs : list (string * Region.t F))
    (net : Network.t F) :
  let net' :=
    fold_left (fun net '(_, region) =>
                 Network.set_all_neurons
                   (Network.all_neurons net ++ Region.neurons region) net)
              rs net in
  Network.regions net' = Network.regions net /\
  Network.connections net' = Network.connections net.
Proof.
  revert net. induction rs as [|[id r] rs IH]; intros net; [done|].
  cbn [fold_left]. destruct (IH (Network.set_all_neurons
    (Network.all_neurons net ++ Region.neurons r) net)) as [-> ->]. done.
Qed.

Lemma Network_initialize_spec (net : Network.t F) (w : World.t F) :
  pristine w -> Network.regions net = [] -> Network.connections net = [] ->
  wp (Network._initialize net)
     (fun net' w' _ => wired (Network.connections net') w') w.
Proof.
  intros Hp Hregions Hconns. unfold Network._initialize. apply wp_bind.
  eapply wp_mono;
    [|apply (wp_fold_each _ _
               (fun net' w' _ =>
                  pristine w' /\
                  regions_within (length (World.neurons w'))
                                 (Network.regions net') /\
                  Network.connections net' = []))].
  - intros net1 w1 l1 (Hp1 & Hrs1 & Hc1). cbn beta.
    match goal with
    | |- wp (Network._create_connections ?n) _ _ =>
        destruct (collect_neurons_frame (Network.regions net1) net1)
          as [Hr Hc];
        eapply wp_mono;
          [|apply (create_connections_spec (length (World.neurons w1)) n w1)]
    end.
    + now intros net' w' l' (Hw' & _).
    + now rewrite Hr.
    + rewrite Hc, Hc1. now apply pristine_wired.
    + reflexivity.
  - rewrite Hregions, Hconns. repeat split; [apply Hp..|constructor].
  - intros id net1 w1 l1 _ (Hp1 & Hrs1 & Hc1). apply wp_bind.
    eapply wp_mono; [|apply (generate_neurons_spec _ w1 Hp1)].
    + intros region w2 l2 (Hp2 & Hlen & Hr2). cbn beta. apply wp_ret.
      split; [exact Hp2|]. split; [|exact Hc1].
      cbn. apply regions_within_dict_set; [exact Hr2|].
      now apply (regions_within_mono (length (World.neurons w1))).
    + constructor.
Qed.
End Construction.

Section Ownership.
Context {F : Type} `{Num F}.

(** What the wiring invariant says about each connection. *)
Lemma wired_owned_once (refs : list nat) (w : World.t F) :
  wired refs w ->
  NoDup refs /\
  (forall cref, (cref < length (World.connections w))%nat -> cref ∈ refs) /\
  (forall cref, cref ∈ refs ->
     exists conn source target,
       World.connections w !! cref = Some conn /\
       World.neurons w !! Connection.from_neuron conn = Some source /\
       World.neurons w !! Connection.to_neuron conn = Some target /\
       count_occ Nat.eq_dec (Neuron.outgoing source) cref = 1%nat /\
       count_occ Nat.eq_dec (Neuron.incoming target) cref = 1%nat /\
       (forall r n, World.neurons w !! r = Some n ->
          (r <> Connection.from_neuron conn ->
           count_occ Nat.eq_dec (Neuron.outgoing n) cref = 0%nat) /\
          (r <> Connection.to_neuron conn ->
           count_occ Nat.eq_dec (Neuron.incoming n) cref = 0%nat))) /\
  (forall r n cref,
     World.neurons w !! r = Some n ->
     cref ∈ Neuron.outgoing n \/ cref ∈ Neuron.incoming n ->
     cref ∈ refs).
Proof.
  intros (-> & Hlists & Hends). repeat apply conj.
  - apply NoDup_seq.
  - intros cref Hlt. apply elem_of_seq. lia.
  - intros cref Hin. apply elem_of_seq in Hin as [_ Hlt]. cbn in Hlt.
    destruct (lookup_lt_is_Some_2 _ _ Hlt) as [conn Hconn].
    destruct (Hends cref conn Hconn) as [Hfrom Hto].
    destruct (lookup_lt_is_Some_2 _ _ Hfrom) as [source Hsource].
    destruct (lookup_lt_is_Some_2 _ _ Hto) as [target Htarget].
    exists conn, source, target.
    split; [exact Hconn|]. split; [exact Hsource|]. split; [exact Htarget|].
    split; [|split].
    + destruct (Hlists _ _ Hsource) as [-> _].
      now rewrite refs_where_count, Hconn, Nat.eqb_refl.
    + destruct (Hlists _ _ Htarget) as [_ ->].
      now rewrite refs_where_count, Hconn, Nat.eqb_refl.
    + intros r n Hn. destruct (Hlists _ _ Hn) as [-> ->].
      rewrite !refs_where_count, Hconn.
      split; intros Hne; apply not_eq_sym, Nat.eqb_neq in Hne;
        now rewrite Hne.
  - intros r n cref Hn Hin. apply elem_of_seq. split; [lia|]. cbn.
    destruct (Hlists r n Hn) as [Hout Hinc].
    assert (Hcount : exists p, (0 < count_occ Nat.eq_dec
                                  (refs_where p (World.connections w)) cref)%nat).
    { destruct Hin as [Hin|Hin]; apply list_elem_of_In in Hin;
        apply (count_occ_In Nat.eq_dec) in Hin.
      - rewrite Hout in Hin. eauto.
      - rewrite Hinc in Hin. eauto. }
    destruct Hcount as [p Hp]. rewrite refs_where_count in Hp.
    destruct (World.connections w !! cref) eqn:E; [|lia].
    now apply lookup_lt_Some in E.
Qed.
End Ownership.

(** C9. After [Network(bounds)] has built its topology in a fresh process,
    whatever the random draws returned:
    - the connection collection holds every connection object, each exactly
      once;
    - every connection of the collection appears exactly once in the
      outgoing list of its source neuron and in no other neuron's outgoing
      list, exactly once in the incoming list of its destination neuron and
      in no other neuron's incoming list;
    - every connection listed by a neuron is in the collection. *)
Theorem Network_new_connections_owned_once
    {F : Type} `{Num F} (bounds : option (Network.Bounds F)) (g : Rng.t F) :
  let run := Network.new bounds (World.empty g) in
  let net := result run in
  let w := world run in
  NoDup (Network.connections net) /\
  (forall cref, (cref < length (World.connections w))%nat ->
                cref ∈ Network.connections net) /\
  (forall cref, cref ∈ Network.connections net ->
     exists conn source target,
       World.connections w !! cref = Some conn /\
       World.neurons w !! Connection.from_neuron conn = Some source /\
       World.neurons w !! Connection.to_neuron conn = Some target /\
       count_occ Nat.eq_dec (Neuron.outgoing source) cref = 1%nat /\
       count_occ Nat.eq_dec (Neuron.incoming target) cref = 1%nat /\
       (forall r n, World.neurons w !! r = Some n ->
          (r <> Connection.from_neuron conn ->
           count_occ Nat.eq_dec (Neuron.outgoing n) cref = 0%nat) /\
          (r <> Connection.to_neuron conn ->
           count_occ Nat.eq_dec (Neuron.incoming n) cref = 0%nat))) /\
  (forall r n cref,
     World.neurons w !! r = Some n ->
     cref ∈ Neuron.outgoing n \/ cref ∈ Neuron.incoming n ->
     cref ∈ Network.connections net).
Proof.
  intros run net w. apply wired_owned_once.
  apply (Network_initialize_spec _ (World.empty g)).
  - split; [reflexivity|constructor].
  - reflexivity.
  - reflexivity.
Qed.

(** The topology loops at work: when every draw is 0, below both
    probabilities, each ordered pair inside region "a" and each pair from
    "a" to "b" gets its edge, in program order. *)
Example create_connections_all_pairs :
  let run :=
    Network._create_connections unconnected_net
      (World.set_rng no_randomness hub_world) in
  Network.connections (result run) = [0; 1; 2; 3]%nat /\
  map (fun c => (Connection.id c, Connection.from_neuron c,
                 Connection.to_neuron c))
      (World.connections (world run)) =
    [("conn_0", 0, 1); ("conn_1", 1, 0); ("conn_2", 0, 2);
     ("conn_3", 1, 2)]%nat /\
  map (fun n => (Neuron.outgoing n, Neuron.incoming n))
      (World.neurons (world run)) =
    [([0; 2], [1]); ([1; 3], [0]); ([], [2; 3])]%nat.
Proof. vm_compute. repeat split. Qed.

(** ** Hub aggregation *)

Lemma py_index_in_range (k : Z) (len : nat) :
  0 <= k < Z.of_nat len ->
  py_index k len = Some (Z.to_nat k) /\ (Z.to_nat k < len)%nat.
Proof.
  intros [H0 Hlt]. unfold py_index.
  replace (0 <=? k) with true by (symmetry; apply Z.leb_le; lia).
  replace (k <? Z.of_nat len) with true by (symmetry; apply Z.ltb_lt; lia).
  split; [reflexivity|lia].
Qed.

(** With a positive output size the distribution loop never raises and
    keeps every property of the slots that adding an activity keeps. *)
Lemma distribute_ok (A P : Q -> Prop) (size i : Z) (activities state : list Q) :
  0 < size -> length state = Z.to_nat size ->
  (forall v a, P v -> A a -> P (v + a)%Q) ->
  Forall A activities -> Forall P state ->
  exists state',
    CentralHub.distribute size i activities state = Ok state' /\
    length state' = Z.to_nat size /\ Forall P state'.
Proof.
  intros Hsize Hlen Hadd. revert i state Hlen.
  induction activities as [|a activities IH]; intros i state Hlen HA HP.
  - exists state. auto.
  - apply Forall_cons in HA as [Ha HA]. cbn [CentralHub.distribute].
    replace (size =? 0) with false by (symmetry; apply Z.eqb_neq; lia).
    destruct (py_index_in_range (i mod size) (length state)) as [-> Hk].
    { rewrite Hlen, Z2Nat.id by lia. apply Z.mod_pos_bound. lia. }
    apply IH; [now rewrite length_alter|exact HA|].
    apply Forall_alter; [exact HP|]. intros v _ Hv. now apply Hadd.
Qed.

Lemma py_max_list_elem (P : Q -> Prop) (v : Q) (vs : list Q) :
  P v -> Forall P vs -> P (py_max_list v vs).
Proof.
  unfold py_max_list. revert v.
  induction vs as [|a vs IH]; intros v Hv Hvs; [exact Hv|].
  apply Forall_cons in Hvs as [Ha Hvs]. cbn [fold_left]. apply IH; [|exact Hvs].
  destruct (Q_py_max_spec v a) as (_ & _ & [-> | ->]); assumption.
Qed.

Lemma py_max_list_ge (v : Q) (vs : list Q) :
  Forall (fun x => (x <= py_max_list v vs)%Q) (v :: vs).
Proof.
  unfold py_max_list. revert v.
  induction vs as [|a vs IH]; intros v; cbn [fold_left].
  - repeat constructor. lra.
  - specialize (IH (py_max v a)).
    apply Forall_cons in IH as [Hacc Hvs].
    destruct (Q_py_max_order v a) as (Hv & Ha & _).
    repeat constructor; [lra|lra|exact Hvs].
Qed.

(** One slot, normalised. *)
Lemma normalised_in_range (v max_val : Q) :
  (0 <= v)%Q -> (v <= max_val)%Q ->
  (0 <= py_min 1 (v / py_max max_val 1) /\
   py_min 1 (v / py_max max_val 1) <= 1)%Q.
Proof.
  intros H0 Hle.
  destruct (Q_py_max_order max_val 1) as (Hm & H1 & _).
  set (d := py_max max_val 1%Q) in *.
  assert (Hdiv0 : (0 <= v / d)%Q) by (apply Qle_shift_div_l; lra).
  assert (Hdiv1 : (v / d <= 1)%Q) by (apply Qle_shift_div_r; lra).
  destruct (Q_py_min_order 1 (v / d)) as (Hmin1 & _ & [E | E]);
    rewrite ?E; split; lra.
Qed.

(** The contribution of every region is non-negative (resp. zero). *)
Lemma region_activities_nonneg (h : CentralHub.t Q)
    (regions : list (string * Region.t Q)) :
  (forall entry, entry ∈ regions ->
                 (0 <= Region.total_activity (snd entry))%Q) ->
  (forall id weight, CentralHub.modulation_weights h !! id = Some weight ->
                     (0.1 <= weight)%Q /\ (weight <= 2)%Q) ->
  Forall (fun a => (0 <= a)%Q)
    (map (fun '(region_id, region) =>
            let weight :=
              default (lit 1) (CentralHub.modulation_weights h !! region_id) in
            (Region.total_activity region * weight)%num) regions).
Proof.
  intros Hact Hw. apply Forall_forall. intros a Ha.
  apply list_elem_of_In, in_map_iff in Ha as ([id r] & <- & Hin).
  apply list_elem_of_In in Hin. specialize (Hact _ Hin). cbn in Hact |- *.
  destruct (CentralHub.modulation_weights h !! id) as [weight|] eqn:E; cbn.
  - destruct (Hw _ _ E). apply Qmult_le_0_compat; lra.
  - lra.
Qed.

Lemma region_activities_zero (h : CentralHub.t Q)
    (regions : list (string * Region.t Q)) :
  (forall entry, entry ∈ regions ->
                 (Region.total_activity (snd entry) == 0)%Q) ->
  Forall (fun a => (a == 0)%Q)
    (map (fun '(region_id, region) =>
            let weight :=
              default (lit 1) (CentralHub.modulation_weights h !! region_id) in
            (Region.total_activity region * weight)%num) regions).
Proof.
  intros Hact. apply Forall_forall. intros a Ha.
  apply list_elem_of_In, in_map_iff in Ha as ([id r] & <- & Hin).
  apply list_elem_of_In in Hin. specialize (Hact _ Hin). cbn in Hact |- *.
  rewrite Hact. ring.
Qed.

(** C3, as the code has it.  For a hub whose [output_size] is at least 1:
    for every region mapping in which each region's total activity is
    [>= 0] and each modulation weight lies in [0.1, 2.0], [aggregate]
    returns normally, the returned vector is the stored state, it has
    [output_size] entries, all in [0,1]; and if every region's total
    activity is 0, every entry is 0. *)
Theorem aggregate_in_unit_interval (h : CentralHub.t Q)
    (regions : list (string * Region.t Q)) :
  0 < CentralHub.output_size h ->
  (forall entry, entry ∈ regions ->
                 (0 <= Region.total_activity (snd entry))%Q) ->
  (forall id weight, CentralHub.modulation_weights h !! id = Some weight ->
                     (0.1 <= weight)%Q /\ (weight <= 2)%Q) ->
  exists h' state,
    CentralHub.aggregate regions h = Ok (h', state) /\
    CentralHub.state h' = state /\
    length state = Z.to_nat (CentralHub.output_size h) /\
    Forall (fun v => (0 <= v)%Q /\ (v <= 1)%Q) state /\
    ((forall entry, entry ∈ regions ->
                    (Region.total_activity (snd entry) == 0)%Q) ->
     Forall (fun v => (v == 0)%Q) state).
Proof.
  intros Hsize Hact Hw. unfold CentralHub.aggregate.
  pose proof (region_activities_nonneg h regions Hact Hw) as Hnonneg.
  pose proof (region_activities_zero h regions) as Hzero.
  set (activities := map _ regions) in *.
  assert (Hlen0 : length (CentralHub.zeros (F := Q) (CentralHub.output_size h))
                  = Z.to_nat (CentralHub.output_size h))
    by apply length_replicate.
  destruct (distribute_ok (fun a => (0 <= a)%Q) (fun v => (0 <= v)%Q)
              (CentralHub.output_size h) 0 activities
              (CentralHub.zeros (CentralHub.output_size h)))
    as (state & Hdist & Hlen & Hpos); [done|done| |done| |].
  { intros v a. lra. }
  { apply Forall_replicate. cbn. lra. }
  assert (Hallzero : (forall entry, entry ∈ regions ->
                        (Region.total_activity (snd entry) == 0)%Q) ->
                     Forall (fun v => (v == 0)%Q) state).
  { intros Hz.
    destruct (distribute_ok (fun a => (a == 0)%Q) (fun v => (v == 0)%Q)
                (CentralHub.output_size h) 0 activities
                (CentralHub.zeros (CentralHub.output_size h)))
      as (state0 & Hdist0 & _ & Hz0); [done|done| |auto| |].
    - intros v a Hv Ha. rewrite Hv, Ha. reflexivity.
    - apply Forall_replicate. reflexivity.
    - congruence. }
  rewrite Hdist. destruct state as [|v vs].
  { cbn in Hlen. lia. }
  pose proof (py_max_list_ge v vs) as Hmax.
  set (max_val := py_max_list v vs) in *.
  destruct (max_val >? lit 0)%num eqn:Hgt.
  - apply Q_ltb_spec in Hgt. cbn [lit Num_Q] in Hgt.
    eexists _, _. split; [reflexivity|]. split; [reflexivity|].
    split; [now rewrite length_map|]. split.
    + apply Forall_forall. intros x Hx.
      apply list_elem_of_In, in_map_iff in Hx as (x0 & <- & Hin).
      apply list_elem_of_In in Hin.
      rewrite Forall_forall in Hpos, Hmax.
      apply normalised_in_range; auto.
    + intros Hz. exfalso.
      assert (Hm : (max_val == 0)%Q).
      { specialize (Hallzero Hz). apply Forall_cons in Hallzero as [Hv Hvs].
        now apply py_max_list_elem. }
      lra.
  - apply Q_ltb_false in Hgt. cbn [lit Num_Q] in Hgt.
    eexists _, _. split; [reflexivity|]. split; [reflexivity|].
    split; [exact Hlen|]. split; [|exact Hallzero].
    apply Forall_forall. intros x Hx.
    rewrite Forall_forall in Hpos, Hmax.
    specialize (Hpos _ Hx). specialize (Hmax _ Hx). cbn beta in *. lra.
Qed.

(** The default hub over two idle regions. *)
Lemma aggregate_in_unit_interval_witness :
  exists h' state,
    CentralHub.aggregate
      [("a", Region.mk "a" 60 [] 0%Q); ("b", Region.mk "b" 60 [] 0.5%Q)]
      (CentralHub.new 20 4) = Ok (h', state) /\
    Forall (fun v => (0 <= v)%Q /\ (v <= 1)%Q) state.
Proof.
  destruct (aggregate_in_unit_interval (CentralHub.new 20 4)
              [("a", Region.mk "a" 60 [] 0%Q); ("b", Region.mk "b" 60 [] 0.5%Q)])
    as (h' & state & Hagg & _ & _ & Hrange & _).
  - reflexivity.
  - intros entry Hin.
    apply elem_of_cons in Hin as [->|Hin]; [cbn; lra|].
    apply list_elem_of_singleton in Hin as ->. cbn. lra.
  - intros id weight Hlook. cbn in Hlook. now rewrite lookup_empty in Hlook.
  - exists h', state. split; [exact Hagg|exact Hrange].
Defined.

(** A hub built with [output_size=0] cannot aggregate a non-empty mapping:
    the slot index [i % self.output_size] divides by zero. *)
Lemma aggregate_output_size_zero_raises :
  CentralHub.aggregate [("a", Region.mk "a" 60 [] 0%Q)]
    (CentralHub.new (F := Q) 20 0) = Raise ZeroDivisionError.
Proof. reflexivity. Qed.

(** ** Reward-based learning *)







(** ** Unknown identifiers *)

(** C8, as the code has it.  [Network.stimulate_region] with a region id
    that is not a key of the region mapping, and
    [LearningManager.set_active] with a name that is not registered, leave
    every state unchanged (world, random generator, manager), record
    nothing, raise nothing, and return what a successful call returns,
    [None]: the failure is silent. *)
Theorem unknown_id_is_silent_noop {F : Type} `{Num F} :
  (forall (net : Network.t F) (region_id : string) (strength : F)
          (w : World.t F),
     dict_get region_id (Network.regions net) = None ->
     Network.stimulate_region region_id strength net w = (tt, w, [])) /\
  (forall (m : LearningManager.t F) (name : string),
     LearningManager.algorithms m !! name = None ->
     LearningManager.set_active name m = m).
Proof.
  split.
  - intros net region_id strength w Hnone.
    unfold Network.stimulate_region. now rewrite Hnone.
  - intros m name Hnone. unfold LearningManager.set_active.
    now rewrite Hnone.
Qed.

Lemma unknown_id_is_silent_noop_witness :
  Network.stimulate_region "ghost" 1%Q two_neuron_net
    (two_neuron_world no_randomness)
    = (tt, two_neuron_world no_randomness, []) /\
  LearningManager.set_active "ghost" hebbian_manager = hebbian_manager.
Proof.
  split.
  - apply (proj1 unknown_id_is_silent_noop). reflexivity.
  - apply (proj2 unknown_id_is_silent_noop). reflexivity.
Defined.

(** No failure indicator: on the same state, a call with an unknown
    identifier and a call with a known one can have the very same outcome
    (return value and state), so nothing the caller observes tells the
    failure from a success. *)
Lemma unknown_id_not_reported :
  (LearningManager.algorithms hebbian_manager !! "ghost" = None /\
   is_Some (LearningManager.algorithms hebbian_manager !! "hebbian") /\
   LearningManager.set_active "ghost" hebbian_manager =
   LearningManager.set_active "hebbian" hebbian_manager) /\
  (dict_get "ghost" (Network.regions void_net) = None /\
   is_Some (dict_get "void" (Network.regions void_net)) /\
   forall w : World.t Q,
     Network.stimulate_region "ghost" 1%Q void_net w =
     Network.stimulate_region "void" 1%Q void_net w).
Proof.
  split.
  - split; [reflexivity|]. split; [now eexists|].
    unfold LearningManager.set_active, LearningManager.active,
      hebbian_manager.
    cbn [LearningManager.algorithms LearningManager.active_algorithm].
    rewrite lookup_insert_ne by done. rewrite lookup_empty.
    rewrite lookup_insert_eq. cbn.
    rewrite insert_insert_eq, alter_insert_eq. reflexivity.
  - split; [reflexivity|]. split; [now eexists|]. reflexivity.
Qed.

(** ** Construction parameters *)



